(** * The Drago tone-mapping operator (src/operators/drago.h)

    A shallow embedding of [DragoOperator]: its constructor, [setParameters],
    the CPU path ([map], [process], [graph]) and the fragment shader, over an
    abstract floating-point interface.  The interface is instantiated twice:
    with IEEE-754 binary32 (the C++ [float], for the operations the standard
    library specifies) and with the real numbers (exact arithmetic). *)

From Stdlib Require Import ZArith QArith Reals Lra Lia Qreals.
From Stdlib Require Import Floats.SpecFloat.
From stdpp Require Import base list strings gmap.

Close Scope Q_scope.
Set Default Proof Using "Type".

(** ** Outcomes of fallible code

    [std::map::at] throws [std::out_of_range] on a missing key; a store through
    [dst] past the end of the caller's buffer has no defined behaviour and is
    reported as [Overrun]. *)

Inductive outcome (A : Type) : Type :=
  | Ok (a : A)
  | OutOfRange (key : string)
  | Overrun.
Arguments Ok {A} a.
Arguments OutOfRange {A} key.
Arguments Overrun {A}.

#[global] Instance outcome_ret : MRet outcome := fun A a => Ok a.
#[global] Instance outcome_bind : MBind outcome := fun A B f m =>
  match m with
  | Ok a => f a
  | OutOfRange key => OutOfRange key
  | Overrun => Overrun
  end.

(** [foldM f l s] runs [f] over [l] from left to right, threading the state
    and stopping at the first failure. *)
Fixpoint foldM {S A : Type} (f : A → S → outcome S) (l : list A) (s : S) : outcome S :=
  match l with
  | [] => Ok s
  | a :: l' => s' ← f a s; foldM f l' s'
  end.

(** [for (int i = 0; i < n; ++i) body]. *)
Definition for_range {S : Type} (n : nat) (body : nat → S → outcome S) (s : S) : outcome S :=
  foldM body (seq 0 n) s.

(** ** The arithmetic of [int]

    A 32-bit two's complement integer.  A product that leaves the range
    [-2^31, 2^31) overflows; the result is taken as the usual targets give
    it, reduced modulo 2^32 into the range. *)

Definition int_wrap (z : Z) : Z := ((z + 2 ^ 31) mod 2 ^ 32 - 2 ^ 31)%Z.

(** [x * y] on [int]s. *)
Definition int_mul (x y : Z) : Z := int_wrap (x * y).

(** ** The arithmetic of [float]

    [lit q] is the literal written [q] in the source ([0.85f]), [of_int] the
    conversion of an [int], [to_uint8] the cast [(uint8_t) x]. *)

Class Arith (F : Type) := {
  lit : Q → F;
  of_int : Z → F;
  fadd : F → F → F;
  fsub : F → F → F;
  fmul : F → F → F;
  fdiv : F → F → F;
  fle : F → F → bool;
  flt : F → F → bool;
  to_uint8 : F → Z
}.
Arguments lit {F _} _%_Q.

(** [std::pow], [std::log], [std::log10] (GLSL: [pow], [log]). *)
Class Elementary (F : Type) := {
  fpow : F → F → F;
  flog : F → F;
  flog10 : F → F
}.

Declare Scope fl_scope.
Delimit Scope fl_scope with fl.
Infix "+" := fadd : fl_scope.
Infix "-" := fsub : fl_scope.
Infix "*" := fmul : fl_scope.
Infix "/" := fdiv : fl_scope.
Infix "<=?" := fle : fl_scope.
Infix "<?" := flt : fl_scope.

(** ** tonemap.h: the base class and its collaborators *)

Module Tonemap.
Section Tonemap.
Context {F : Type} `{Arith F}.

(** Modelled from the spec: the class Parameter is declared in tonemap.h, which is
    not part of the sources.  A parameter carries a value, an optional
    editable range, a short label (the uniform's name) and a description;
    the two-argument constructor builds the computed form without range. *)
Record Param := mkParameter {
  value : F;
  range : option (F * F);
  shortLabel : string;
  description : string
}.

Definition Parameter_bounded (v lo hi : F) (label desc : string) : Param :=
  mkParameter v (Some (lo, hi)) label desc.

Definition Parameter_computed (v : F) (label : string) : Param :=
  mkParameter v None label "".

(** Modelled from the spec: the shader is a named pair of a vertex stage and
    a fragment stage, kept as source text. *)
Record Shader := mkShader {
  shaderName : string;
  vertexSource : string;
  fragmentSource : string
}.

(** Modelled from the spec: the members of [TonemapOperator] that the Drago
    operator assigns. [parameters] is a [std::map] from key to parameter. *)
Record TonemapOperator := mkOperator {
  name : string;
  opDescription : string;
  parameters : gmap string Param;
  shader : Shader
}.

Record Color3f := mkColor { r : F; g : F; b : F }.

(** Modelled from the spec: what the operator reads of an [Image]: its size
    [(x, y) = (width, height)], the pixel at (row, column), and the two
    luminance statistics. *)
Record Image := mkImage {
  getSize : Z * Z;
  ref : nat → nat → Color3f;
  getLogAverageLuminance : F;
  getMaximumLuminance : F
}.

(** [parameters.at(key).value] *)
Definition value_at (op : TonemapOperator) (key : string) : outcome F :=
  match parameters op !! key with
  | Some p => Ok (value p)
  | None => OutOfRange key
  end.

(** Modelled from the spec: [clamp(v, lo, hi)] is declared in a header that
    is not part of the sources; it limits [v] to the interval [[lo, hi]]. *)
Definition clamp (v lo hi : F) : F :=
  if (v <? lo)%fl then lo else if (hi <? v)%fl then hi else v.

End Tonemap.
Arguments Param F : clear implicits.
Arguments Shader : clear implicits.
Arguments TonemapOperator F : clear implicits.
Arguments Color3f F : clear implicits.
Arguments Image F : clear implicits.
End Tonemap.
Import Tonemap.

(** ** drago.h: the operator *)

Module DragoOperator.

(** Line feed and double quote, as the escapes of the C++ literals. *)
Definition nl : string := String (Ascii.ascii_of_nat 10) EmptyString.
Definition dq : string := String (Ascii.ascii_of_nat 34) EmptyString.

Definition vertex_text : string :=
  String.concat nl [
    "#version 330";
    "in vec2 position;";
    "out vec2 uv;";
    "void main() {";
    "    gl_Position = vec4(position.x*2-1, position.y*2-1, 0.0, 1.0);";
    "    uv = vec2(position.x, 1-position.y);";
    "}"
  ].

Definition fragment_text : string :=
  String.concat nl [
    "#version 330";
    "uniform sampler2D source;";
    "uniform float exposure;";
    "uniform float gamma;";
    "uniform float Ldmax;";
    "uniform float Lwa;";
    "uniform float Lwmax;";
    "uniform float b;";
    "uniform float slope;";
    "uniform float start;";
    "in vec2 uv;";
    "out vec4 out_color;";
    "";
    "vec4 clampedValue(vec4 color) {";
    "	 color.a = 1.0;";
    "	 return clamp(color, 0.0, 1.0);";
    "}";
    "";
    "float gammaCorrect(float v) {";
    "	 if (v <= start) {";
    "	 	 return slope * v;";
    "	 }";
    "	 else {";
    "	 	 return pow(1.099 * v, 0.9/gamma) - 0.099;";
    "	 }";
    "}";
    "";
    "void main() {";
    "	 float LwaP = exposure * Lwa / pow(1.0 + b - 0.85, 5);";
    "	 float LwmaxP = exposure * Lwmax / LwaP;";
    "    vec4 color = exposure * texture(source, uv) / LwaP;";
    "	 float exponent = log(b) / log(0.5);";
    "	 float c1 = (0.01 * Ldmax) / (log(1 + LwmaxP)/log(10.0));";
    "	 vec4 c2 = log(color + 1) / log(2.0 + 8 * (pow(color / LwmaxP, vec4(exponent))));";
    "	 color = c1 * c2;";
    "	 color = clampedValue(color);";
    "	 out_color = vec4(gammaCorrect(color.r), gammaCorrect(color.g), gammaCorrect(color.b), 1.0);";
    "}"
  ].

Section Drago.
Context {F : Type} `{Arith F} `{Elementary F}.
Local Open Scope fl_scope.

(** *** Constructor (lines 7-67) *)

Definition default_parameters : gmap string (Param F) :=
  <["b" := Parameter_bounded (lit 0.85) (lit 0) (lit 1) "b" "Bias function parameter"]>
  (<["Ldmax" := Parameter_bounded (lit 100) (lit 0) (lit 200) "Ldmax"
       "Maximum luminance capability of the display (cd/m^2)"]>
  (<["start" := Parameter_bounded (lit 0.018) (lit 0) (lit 2) "start"
       ("Additional Gamma correction parameter:" +:+ nl +:+
        "Abscissa the the point of tangency.")]>
  (<["slope" := Parameter_bounded (lit 4.5) (lit 0) (lit 10) "slope"
       ("Additional Gamma correction parameter:" +:+ nl +:+
        "Elevation ratio of the line passing by the origin and tangent to the curve.")]>
  (<["Gamma" := Parameter_bounded (lit 2.2) (lit 0) (lit 10) "gamma"
       "Gamma correction value"]> ∅)))).

Definition new : TonemapOperator F :=
  {| name := "Drago";
     opDescription :=
       "Drago Mapping" +:+ nl +:+ nl +:+ "Propsed in " +:+ dq +:+
       "Adaptive Logarithmic Mapping For Displaying High Contrast Scenes" +:+ dq +:+
       " by Drago et al. 2003.";
     parameters := default_parameters;
     shader := mkShader "Drago" vertex_text fragment_text |}.

(** *** setParameters (lines 69-72) *)

Definition setParameters (image : Image F) (op : TonemapOperator F) : TonemapOperator F :=
  let parameters1 :=
    <["Lwa" := Parameter_computed (getLogAverageLuminance image) "Lwa"]> (parameters op) in
  let parameters2 :=
    <["Lwmax" := Parameter_computed (getMaximumLuminance image) "Lwmax"]> parameters1 in
  {| name := name op;
     opDescription := opDescription op;
     parameters := parameters2;
     shader := shader op |}.

(** *** map (lines 115-131) *)

Definition map (v exposure gamma Ldmax Lwa Lwmax b start slope : F) : F :=
  let Lwa := exposure * Lwa / fpow (lit 1 + b - lit 0.85) (lit 5) in
  let Lwmax := exposure * Lwmax / Lwa in
  let value := exposure * v / Lwa in
  let exponent := flog b / flog (lit 0.5) in
  let c1 := (lit 0.01 * Ldmax) / flog10 (lit 1 + Lwmax) in
  let c2 := flog (lit 1 + value) / flog (lit 2 + lit 8 * fpow (value / Lwmax) exponent) in
  let value := c1 * c2 in
  if value <=? start then slope * value
  else fpow (lit 1.099 * value) (lit 0.9 / gamma) - lit 0.099.

(** *** graph (lines 102-112) *)

Definition graph (op : TonemapOperator F) (value : F) : outcome F :=
  gamma ← value_at op "Gamma";
  Ldmax ← value_at op "Ldmax";
  Lwa ← value_at op "Lwa";
  Lwmax ← value_at op "Lwmax";
  b ← value_at op "b";
  start ← value_at op "start";
  slope ← value_at op "slope";
  Ok (map value (lit 1) gamma Ldmax Lwa Lwmax b start slope).

(** *** process (lines 74-100)

    The destination is the caller's buffer [buf] together with the offset
    [ptr] of the moving pointer [dst] into it; [progress] is the cell behind
    the pointer of that name. *)

Record ProcState := mkState {
  buf : list Z;
  ptr : nat;
  progress : F
}.

(** [dst[k] = x] *)
Definition store (k : nat) (x : Z) (st : ProcState) : outcome ProcState :=
  if decide (ptr st + k < length (buf st))%nat
  then Ok (mkState (<[(ptr st + k)%nat := x]> (buf st)) (ptr st) (progress st))
  else Overrun.

(** The body of the inner loop (lines 89-97). *)
Definition pixel (image : Image F) (exposure delta gamma Ldmax Lwa Lwmax b start slope : F)
    (i j : nat) (st : ProcState) : outcome ProcState :=
  let color := ref image i j in
  let colorR := map (r color) exposure gamma Ldmax Lwa Lwmax b start slope in
  let colorG := map (g color) exposure gamma Ldmax Lwa Lwmax b start slope in
  let colorB := map (Tonemap.b color) exposure gamma Ldmax Lwa Lwmax b start slope in
  st ← store 0 (to_uint8 (clamp (lit 255 * colorR) (lit 0) (lit 255))) st;
  st ← store 1 (to_uint8 (clamp (lit 255 * colorG) (lit 0) (lit 255))) st;
  st ← store 2 (to_uint8 (clamp (lit 255 * colorB) (lit 0) (lit 255))) st;
  Ok (mkState (buf st) (ptr st + 3) (progress st + delta)).

Definition process (op : TonemapOperator F) (image : Image F) (dst : list Z) (exposure : F)
    : outcome ProcState :=
  let size := getSize image in
  let st := mkState dst 0 (lit 0) in
  let delta := lit 1 / of_int (int_mul size.1 size.2) in
  gamma ← value_at op "Gamma";
  Ldmax ← value_at op "Ldmax";
  Lwa ← value_at op "Lwa";
  Lwmax ← value_at op "Lwmax";
  b ← value_at op "b";
  start ← value_at op "start";
  slope ← value_at op "slope";
  for_range (Z.to_nat size.2) (λ i,
    for_range (Z.to_nat size.1) (λ j,
      pixel image exposure delta gamma Ldmax Lwa Lwmax b start slope i j)) st.

(** *** The fragment shader (lines 28-65), one colour channel

    GLSL's [min], [max] and [clamp] are written out from their definitions;
    the integer literals [5], [1] and [8] are converted as GLSL converts
    them. *)

Definition glsl_max (x y : F) : F := if x <? y then y else x.
Definition glsl_min (x y : F) : F := if y <? x then y else x.
Definition glsl_clamp (x lo hi : F) : F := glsl_min (glsl_max x lo) hi.

(** [clampedValue], on a colour channel. *)
Definition clampedValue (c : F) : F := glsl_clamp c (lit 0.0) (lit 1.0).

Definition gammaCorrect (gamma start slope v : F) : F :=
  if v <=? start then slope * v
  else fpow (lit 1.099 * v) (lit 0.9 / gamma) - lit 0.099.

(** [main], for the channel whose texel is [texel]. *)
Definition fragment (texel exposure gamma Ldmax Lwa Lwmax b start slope : F) : F :=
  let LwaP := exposure * Lwa / fpow (lit 1.0 + b - lit 0.85) (of_int 5) in
  let LwmaxP := exposure * Lwmax / LwaP in
  let color := exposure * texel / LwaP in
  let exponent := flog b / flog (lit 0.5) in
  let c1 := (lit 0.01 * Ldmax) / (flog (of_int 1 + LwmaxP) / flog (lit 10.0)) in
  let c2 := flog (color + of_int 1)
            / flog (lit 2.0 + of_int 8 * fpow (color / LwmaxP) exponent) in
  let color := c1 * c2 in
  let color := clampedValue color in
  gammaCorrect gamma start slope color.

(** *** Derived notions used by the statements below *)

(** The compressed value [c1 * c2] that [map] holds after line 123. *)
Definition compressed (v exposure Ldmax Lwa Lwmax b : F) : F :=
  let Lwa := exposure * Lwa / fpow (lit 1 + b - lit 0.85) (lit 5) in
  let Lwmax := exposure * Lwmax / Lwa in
  let value := exposure * v / Lwa in
  let exponent := flog b / flog (lit 0.5) in
  let c1 := (lit 0.01 * Ldmax) / flog10 (lit 1 + Lwmax) in
  let c2 := flog (lit 1 + value) / flog (lit 2 + lit 8 * fpow (value / Lwmax) exponent) in
  c1 * c2.

(** The byte [process] stores for a channel whose mapped value is [c]. *)
Definition quantize (c : F) : Z := to_uint8 (clamp (lit 255 * c) (lit 0) (lit 255)).

(** The three bytes [process] stores for the pixel at (row, column) [ij]. *)
Definition pixel_bytes (image : Image F) (exposure gamma Ldmax Lwa Lwmax b start slope : F)
    (ij : nat * nat) : list Z :=
  let color := ref image ij.1 ij.2 in
  [ quantize (map (r color) exposure gamma Ldmax Lwa Lwmax b start slope);
    quantize (map (g color) exposure gamma Ldmax Lwa Lwmax b start slope);
    quantize (map (Tonemap.b color) exposure gamma Ldmax Lwa Lwmax b start slope) ].

(** The progress cell after [n] executions of [*progress += delta]. *)
Definition accumulate (delta : F) (n : nat) (p : F) : F :=
  Nat.iter n (λ q, q + delta) p.

(** The operator stores a value under each of the seven keys that [process]
    and [graph] read. *)
Definition stored (op : TonemapOperator F) (gamma Ldmax Lwa Lwmax b start slope : F) : Prop :=
  value_at op "Gamma" = Ok gamma ∧ value_at op "Ldmax" = Ok Ldmax ∧
  value_at op "Lwa" = Ok Lwa ∧ value_at op "Lwmax" = Ok Lwmax ∧
  value_at op "b" = Ok b ∧ value_at op "start" = Ok start ∧
  value_at op "slope" = Ok slope.

(** The pixels in the order the two loops visit them. *)
Definition scan_order (w h : nat) : list (nat * nat) :=
  flat_map (λ i, pair i <$> seq 0 w) (seq 0 h).

(** The state of [process] after its first [k] pixels. *)
Definition after_pixels (op : TonemapOperator F) (image : Image F) (dst : list Z)
    (exposure : F) (k : nat) : outcome ProcState :=
  let size := getSize image in
  let st := mkState dst 0 (lit 0) in
  let delta := lit 1 / of_int (int_mul size.1 size.2) in
  gamma ← value_at op "Gamma";
  Ldmax ← value_at op "Ldmax";
  Lwa ← value_at op "Lwa";
  Lwmax ← value_at op "Lwmax";
  b ← value_at op "b";
  start ← value_at op "start";
  slope ← value_at op "slope";
  foldM (λ ij, pixel image exposure delta gamma Ldmax Lwa Lwmax b start slope ij.1 ij.2)
    (take k (scan_order (Z.to_nat size.1) (Z.to_nat size.2))) st.

(** The algorithm as the specification words it (section 4.3, steps 1-8). *)
Definition drago_reference (v e Gamma Ldmax Lwa Lwmax b start slope : F) : F :=
  let Lwa' := e * Lwa / fpow (lit 1 + b - lit 0.85) (lit 5) in
  let Lwmax' := e * Lwmax / Lwa' in
  let value := e * v / Lwa' in
  let exponent := flog b / flog (lit 0.5) in
  let c1 := lit 0.01 * Ldmax / flog10 (lit 1 + Lwmax') in
  let c2 := flog (lit 1 + value) / flog (lit 2 + lit 8 * fpow (value / Lwmax') exponent) in
  let value := c1 * c2 in
  if value <=? start then slope * value
  else fpow (lit 1.099 * value) (lit 0.9 / Gamma) - lit 0.099.

End Drago.
End DragoOperator.

(** ** Reading the uniforms a shader text declares *)

Module Glsl.

(** The lines of a text, split at line feeds. *)
Fixpoint lines (s : string) : list string :=
  match s with
  | EmptyString => [EmptyString]
  | String c s' =>
      if Ascii.eqb c (Ascii.ascii_of_nat 10) then EmptyString :: lines s'
      else match lines s' with
           | l :: ls => String c l :: ls
           | [] => [String c EmptyString]
           end
  end.

(** [s] without the prefix [p], when it starts with [p]. *)
Fixpoint strip_prefix (p s : string) : option string :=
  match p, s with
  | EmptyString, _ => Some s
  | String a p', String c s' => if Ascii.eqb a c then strip_prefix p' s' else None
  | String _ _, EmptyString => None
  end.

(** [s] without its final semicolon, when it ends with its only one. *)
Fixpoint before_semicolon (s : string) : option string :=
  match s with
  | EmptyString => None
  | String c s' =>
      if Ascii.eqb c (Ascii.ascii_of_nat 59)
      then match s' with EmptyString => Some EmptyString | _ => None end
      else String c <$> before_semicolon s'
  end.

(** The name declared by a line [uniform float name;]. *)
Definition float_uniform (line : string) : option string :=
  strip_prefix "uniform float " line ≫= before_semicolon.

(** The float uniforms a shader text declares, in order. *)
Definition float_uniforms (text : string) : list string :=
  omap float_uniform (lines text).

End Glsl.

(** ** Two arithmetics *)

(** *** IEEE-754 binary32

    The C++ [float]: 24 bits of precision, infinities at exponent 128, every
    operation rounded to nearest-even.  A literal is the correctly rounded
    quotient of its numerator and denominator (both exactly representable
    for the literals of this file).  The cast truncates toward zero; it has
    no defined result on NaN and the infinities, where 0 is returned. *)

Module Binary32.

Definition prec : Z := 24.
Definition emax : Z := 128.

Definition of_Z (z : Z) : spec_float := binary_normalize prec emax z 0 false.

Definition of_Q (q : Q) : spec_float :=
  SFdiv prec emax (of_Z (Qnum q)) (of_Z (Zpos (Qden q))).

Definition trunc (x : spec_float) : Z :=
  match x with
  | S754_finite s m e =>
      let a := if (0 <=? e)%Z then (Zpos m * 2 ^ e)%Z else (Zpos m / 2 ^ (- e))%Z in
      if s then (- a)%Z else a
  | _ => 0%Z
  end.

(** A 200 x 200 image, black throughout. *)
Definition black_image : Image spec_float :=
  mkImage (200, 200)%Z (λ _ _, mkColor (S754_zero false) (S754_zero false) (S754_zero false))
    (S754_zero false) (S754_zero false).

(** The rational value of a finite float. *)
Definition to_Q (x : spec_float) : option Q :=
  match x with
  | S754_zero _ => Some (inject_Z 0)
  | S754_finite s m e =>
      let a := if (0 <=? e)%Z then inject_Z (Zpos m * 2 ^ e)
               else Qmake (Zpos m) (Pos.pow 2 (Z.to_pos (- e))) in
      Some (if s then Qopp a else a)
  | _ => None
  end.

#[global] Instance arith : Arith spec_float := {|
  lit := of_Q;
  of_int := of_Z;
  fadd := SFadd prec emax;
  fsub := SFsub prec emax;
  fmul := SFmul prec emax;
  fdiv := SFdiv prec emax;
  fle := SFleb;
  flt := SFltb;
  to_uint8 := trunc
|}.

End Binary32.

(** *** Exact arithmetic on the reals

    [pow], [log] and [log10] are the real functions; they are the values the
    C functions approximate wherever the base of a power and the argument of
    a logarithm are positive.  Statements that evaluate them are made at
    such arguments only; statements for all arguments are made for every
    interpretation of the three functions. *)

Module Exact.

#[global] Instance Rle_decision (x y : R) : Decision (x <= y)%R := Rle_dec x y.
#[global] Instance Rlt_decision (x y : R) : Decision (x < y)%R := Rlt_dec x y.

(** The cast to an integer type drops the fractional part. *)
Definition trunc (x : R) : Z :=
  if decide (0 <= x)%R then Int_part x else (- Int_part (- x))%Z.

#[global] Instance arith : Arith R := {|
  lit := Q2R;
  of_int := IZR;
  fadd := Rplus;
  fsub := Rminus;
  fmul := Rmult;
  fdiv := Rdiv;
  fle := λ x y, bool_decide (x <= y)%R;
  flt := λ x y, bool_decide (x < y)%R;
  to_uint8 := trunc
|}.

#[global] Instance elementary : Elementary R := {|
  fpow := Rpower;
  flog := ln;
  flog10 := λ x, (ln x / ln 10)%R
|}.

(** Rounding to the nearest integer, as the specification's [round]. *)
Definition round (x : R) : Z := Int_part (x + / 2).

(** A 1 x 1 image whose pixel is 1 on all channels, with its statistics, and
    a 3 x 2 image whose channels record the row and the column. *)
Definition unit_image : Image R :=
  mkImage (1, 1)%Z (λ _ _, mkColor 1%R 1%R 1%R) 1%R 1%R.

Definition grid_image : Image R :=
  mkImage (3, 2)%Z (λ i j, mkColor (INR i) (INR j) 1%R) 1%R 2%R.

(** An image without pixels: five rows of width 0. *)
Definition empty_image : Image R :=
  mkImage (0, 5)%Z (λ _ _, mkColor 0%R 0%R 0%R) 0%R 0%R.


(** The operator as constructed, after [setParameters] on [unit_image]. *)
Definition drago : TonemapOperator R :=
  DragoOperator.setParameters unit_image DragoOperator.new.

(** The same operator after the display luminance was edited to 200, the
    upper end of its range. *)
Definition drago_bright : TonemapOperator R :=
  mkOperator (name drago) (opDescription drago)
    (<["Ldmax" := Parameter_bounded 200%R 0%R 200%R "Ldmax"
         "Maximum luminance capability of the display (cd/m^2)"]> (parameters drago))
    (shader drago).

(** The exact arithmetic with another reading [p] of [pow]. *)
Definition with_pow (p : R → R → R) : Elementary R :=
  {| fpow := p; flog := ln; flog10 := λ x, (ln x / ln 10)%R |}.

End Exact.

(** * Properties *)

Import DragoOperator.

(** ** Loops *)

Lemma foldM_app {S A : Type} (f : A → S → outcome S) (l1 l2 : list A) (s : S) :
  foldM f (l1 ++ l2) s = (s' ← foldM f l1 s; foldM f l2 s').
Proof.
  revert s; induction l1 as [|a l1 IH]; intros s; simpl; [done|].
  destruct (f a s) as [s1| |]; simpl; [apply IH|done|done].
Qed.

Lemma foldM_fmap {S A B : Type} (f : B → S → outcome S) (h : A → B) (l : list A) (s : S) :
  foldM f (h <$> l) s = foldM (λ a, f (h a)) l s.
Proof.
  revert s; induction l as [|a l IH]; intros s; simpl; [done|].
  destruct (f (h a) s); simpl; auto.
Qed.

Lemma foldM_ext {S A : Type} (f g : A → S → outcome S) (l : list A) (s : S) :
  (∀ a s, f a s = g a s) → foldM f l s = foldM g l s.
Proof.
  intros Hfg. revert s; induction l as [|a l IH]; intros s; simpl; [done|].
  rewrite Hfg. destruct (g a s); simpl; auto.
Qed.

(** Two nested [for] loops visit the pixels in [scan_order]. *)
Lemma nested_loops_scan {S : Type} (body : nat → nat → S → outcome S) (w h : nat) (s : S) :
  for_range h (λ i, for_range w (λ j, body i j)) s
  = foldM (λ ij, body ij.1 ij.2) (scan_order w h) s.
Proof.
  unfold for_range, scan_order.
  generalize (seq 0 h) as rows; intros rows; revert s.
  induction rows as [|i rows IH]; intros s; simpl; [done|].
  rewrite foldM_app, foldM_fmap; simpl.
  destruct (foldM (λ j, body i j) (seq 0 w) s); simpl; auto.
Qed.

Lemma scan_order_length (w h : nat) : length (scan_order w h) = (h * w)%nat.
Proof.
  unfold scan_order. generalize 0%nat at 2 as from.
  induction h as [|h IH]; intros from; simpl; [done|].
  rewrite length_app, length_fmap, length_seq, IH. lia.
Qed.

Lemma scan_order_succ (w h : nat) :
  scan_order w (S h) = scan_order w h ++ (pair h <$> seq 0 w).
Proof.
  unfold scan_order. rewrite seq_S, flat_map_app; simpl. by rewrite app_nil_r.
Qed.

(** Row-major order: pixel (row [i], column [j]) is the [i * w + j]-th. *)
Lemma scan_order_lookup (w h i j : nat) :
  (i < h)%nat → (j < w)%nat → scan_order w h !! (i * w + j)%nat = Some (i, j).
Proof.
  intros Hi Hj. induction h as [|h IH]; [lia|].
  rewrite scan_order_succ.
  destruct (decide (i < h)%nat) as [Hlt|Hge].
  - rewrite lookup_app_l; [by apply IH|].
    rewrite scan_order_length. nia.
  - assert (i = h) as -> by lia.
    rewrite lookup_app_r; rewrite scan_order_length; [|lia].
    replace (h * w + j - h * w)%nat with j by lia.
    rewrite list_lookup_fmap, lookup_seq_lt; done.
Qed.

(** ** The destination buffer *)

Lemma insert3 {A : Type} (l : list A) (p : nat) (x y z : A) :
  (p + 3 ≤ length l)%nat →
  <[(p + 2)%nat := z]> (<[(p + 1)%nat := y]> (<[(p + 0)%nat := x]> l))
  = take p l ++ x :: y :: z :: drop (p + 3) l.
Proof.
  revert l; induction p as [|p IH]; intros l Hl.
  - destruct l as [|a [|b [|c l]]]; simpl in Hl; try lia. done.
  - destruct l as [|a l]; simpl in Hl; [lia|].
    simpl. f_equal. apply IH. lia.
Qed.

(** Chunks of three: the bytes of the [k]-th element start at offset [3 k]. *)
Lemma flat_map_lookup3 {A B : Type} (f : A → list B) (l : list A) (k c : nat) (a : A) :
  (∀ a, length (f a) = 3%nat) → l !! k = Some a → (c < 3)%nat →
  flat_map f l !! (3 * k + c)%nat = f a !! c.
Proof.
  intros Hf. revert k; induction l as [|a0 l IH]; intros k Hk Hc; [done|].
  change (flat_map f (a0 :: l)) with (f a0 ++ flat_map f l).
  destruct k as [|k]; cbn [lookup list_lookup] in Hk.
  - injection Hk as ->. rewrite lookup_app_l; [f_equal; lia|]. rewrite Hf; lia.
  - rewrite lookup_app_r; rewrite Hf; [|lia].
    replace (3 * S k + c - 3)%nat with (3 * k + c)%nat by lia. by apply IH.
Qed.

Lemma flat_map_length3 {A B : Type} (f : A → list B) (l : list A) :
  (∀ a, length (f a) = 3%nat) → length (flat_map f l) = (3 * length l)%nat.
Proof.
  intros Hf. induction l as [|a l IH]; simpl; [done|].
  rewrite length_app, Hf, IH. lia.
Qed.

(** ** The pixel loop of [process], in any arithmetic *)

Section Process.
Context {F : Type} `{Arith F} `{Elementary F}.
Local Open Scope fl_scope.

Variables (image : Image F) (exposure delta gamma Ldmax Lwa Lwmax b start slope : F).

Local Abbreviation body :=
  (λ ij : nat * nat, pixel image exposure delta gamma Ldmax Lwa Lwmax b start slope ij.1 ij.2).
Local Abbreviation bytes :=
  (pixel_bytes image exposure gamma Ldmax Lwa Lwmax b start slope).

Lemma pixel_bytes_length (ij : nat * nat) : length (bytes ij) = 3%nat.
Proof. done. Qed.

(** One pixel: three stores, the pointer moves by three, progress by
    [delta]. *)
Lemma pixel_step (ij : nat * nat) (st : ProcState) :
  (ptr st + 3 ≤ length (buf st))%nat →
  body ij st
  = Ok (mkState (take (ptr st) (buf st) ++ bytes ij ++ drop (ptr st + 3) (buf st))
          (ptr st + 3) (progress st + delta)).
Proof.
  intros Hcap. destruct st as [l p q]; simpl in *.
  unfold pixel, store; simpl.
  rewrite decide_True by lia; simpl.
  rewrite decide_True by (rewrite length_insert; lia); simpl.
  rewrite decide_True by (rewrite !length_insert; lia); simpl.
  rewrite insert3 by done. done.
Qed.

(** A pixel past the end of the buffer is an overrun. *)
Lemma pixel_overrun (ij : nat * nat) (st : ProcState) :
  (length (buf st) < ptr st + 3)%nat → body ij st = Overrun.
Proof.
  intros Hcap. destruct st as [l p q]; simpl in *.
  unfold pixel, store; simpl.
  destruct (decide (p + 0 < length l)%nat); simpl; [|done].
  destruct (decide (p + 1 < length (<[(p + 0)%nat:=_]> l))%nat) as [H1|]; simpl; [|done].
  rewrite length_insert in H1.
  rewrite decide_False; [done|]. rewrite !length_insert. lia.
Qed.

Lemma accumulate_succ_r (n : nat) (p : F) :
  accumulate delta (S n) p = accumulate delta n (p + delta).
Proof.
  unfold accumulate. induction n as [|n IH]; simpl; [done|].
  simpl in IH. by rewrite IH.
Qed.

(** Any run of pixels that fits the buffer: the bytes are laid out one pixel
    after the other from the pointer on, the rest of the buffer is kept. *)
Lemma pixels_run (coords : list (nat * nat)) (st : ProcState) :
  (ptr st + 3 * length coords ≤ length (buf st))%nat →
  foldM body coords st
  = Ok (mkState
          (take (ptr st) (buf st) ++ flat_map bytes coords
             ++ drop (ptr st + 3 * length coords) (buf st))
          (ptr st + 3 * length coords)
          (accumulate delta (length coords) (progress st))).
Proof.
  revert st; induction coords as [|ij coords IH]; intros [l p q] Hcap;
    cbn [ptr buf progress length foldM flat_map] in *.
  - rewrite Nat.mul_0_r, Nat.add_0_r. cbn [app]. rewrite take_drop. done.
  - pose proof (pixel_step ij (mkState l p q)) as Hstep.
    cbn [ptr buf progress] in Hstep. rewrite Hstep by lia. clear Hstep.
    cbn [mbind outcome_bind].
    set (l1 := take p l ++ bytes ij ++ drop (p + 3) l).
    assert (length (take p l) = p) as Hp by (rewrite length_take; lia).
    assert (length l1 = length l) as Hlen.
    { unfold l1. rewrite !length_app, Hp, pixel_bytes_length, length_drop. lia. }
    rewrite IH; cbn [ptr buf progress]; [|lia].
    rewrite accumulate_succ_r.
    replace (p + 3 + 3 * length coords)%nat with (p + 3 * S (length coords))%nat by lia.
    do 2 f_equal.
    assert (take (p + 3) l1 = take p l ++ bytes ij) as ->.
    { unfold l1. rewrite app_assoc. apply take_app_length'.
      rewrite length_app, Hp, pixel_bytes_length. done. }
    assert (drop (p + 3 * S (length coords)) l1 = drop (p + 3 * S (length coords)) l) as ->.
    { unfold l1. rewrite app_assoc.
      rewrite drop_app_ge; rewrite length_app, Hp, pixel_bytes_length; [|lia].
      rewrite drop_drop. f_equal. lia. }
    by rewrite <- !app_assoc.
Qed.

End Process.

Lemma flat_map_take3 {A B : Type} (f : A → list B) (l : list A) (k : nat) :
  (∀ a, length (f a) = 3%nat) →
  flat_map f (take k l) = take (3 * k) (flat_map f l).
Proof.
  intros Hf. revert k; induction l as [|a l IH]; intros k.
  - rewrite take_nil. cbn [flat_map]. by rewrite take_nil.
  - destruct k as [|k]; [by rewrite Nat.mul_0_r|].
    change (flat_map f (take (S k) (a :: l))) with (f a ++ flat_map f (take k l)).
    change (flat_map f (a :: l)) with (f a ++ flat_map f l).
    rewrite take_app_ge; rewrite Hf; [|lia].
    rewrite IH. do 2 f_equal. lia.
Qed.

(** ** [process] and [graph] as functions of the stored values *)

Section Operator.
Context {F : Type} `{Arith F} `{Elementary F}.
Local Open Scope fl_scope.

Variables (op : TonemapOperator F) (gamma Ldmax Lwa Lwmax b start slope : F).
Hypothesis Hstored : stored op gamma Ldmax Lwa Lwmax b start slope.

Lemma graph_stored (v : F) :
  graph op v = Ok (map v (lit 1) gamma Ldmax Lwa Lwmax b start slope).
Proof using Hstored.
  destruct Hstored as (Hg & HL & Ha & Hm & Hb & Hs & Hl).
  unfold graph. rewrite Hg, HL, Ha, Hm, Hb, Hs, Hl. done.
Qed.

Lemma after_pixels_stored (image : Image F) (dst : list Z) (exposure : F) (k : nat) :
  after_pixels op image dst exposure k
  = foldM (λ ij, pixel image exposure (lit 1 / of_int (int_mul (getSize image).1 (getSize image).2))
                   gamma Ldmax Lwa Lwmax b start slope ij.1 ij.2)
      (take k (scan_order (Z.to_nat (getSize image).1) (Z.to_nat (getSize image).2)))
      (mkState dst 0 (lit 0)).
Proof using Hstored.
  destruct Hstored as (Hg & HL & Ha & Hm & Hb & Hs & Hl).
  unfold after_pixels. rewrite Hg, HL, Ha, Hm, Hb, Hs, Hl. done.
Qed.

Lemma process_stored (image : Image F) (dst : list Z) (exposure : F) :
  process op image dst exposure
  = foldM (λ ij, pixel image exposure (lit 1 / of_int (int_mul (getSize image).1 (getSize image).2))
                   gamma Ldmax Lwa Lwmax b start slope ij.1 ij.2)
      (scan_order (Z.to_nat (getSize image).1) (Z.to_nat (getSize image).2))
      (mkState dst 0 (lit 0)).
Proof using Hstored.
  destruct Hstored as (Hg & HL & Ha & Hm & Hb & Hs & Hl).
  unfold process. rewrite Hg, HL, Ha, Hm, Hb, Hs, Hl. cbn [mbind outcome_bind].
  apply nested_loops_scan.
Qed.

(** The state after the first [k] pixels: [3 k] bytes written from offset 0,
    [k] additions to the progress cell. *)
Lemma after_pixels_result (image : Image F) (dst : list Z) (exposure : F) (k : nat) :
  let w := Z.to_nat (getSize image).1 in
  let h := Z.to_nat (getSize image).2 in
  let delta := lit 1 / of_int (int_mul (getSize image).1 (getSize image).2) in
  (k ≤ h * w)%nat → (3 * k ≤ length dst)%nat →
  after_pixels op image dst exposure k
  = Ok (mkState
          (flat_map (pixel_bytes image exposure gamma Ldmax Lwa Lwmax b start slope)
             (take k (scan_order w h)) ++ drop (3 * k) dst)
          (3 * k)
          (accumulate delta k (lit 0))).
Proof using Hstored.
  intros w h delta Hk Hcap.
  rewrite after_pixels_stored. fold w h delta.
  assert (length (take k (scan_order w h)) = k) as Hlen.
  { rewrite length_take, scan_order_length. lia. }
  rewrite pixels_run; cbn [ptr buf progress]; rewrite Hlen; [|lia].
  rewrite take_0. done.
Qed.

(** The whole call is the state after all [w * h] pixels. *)
Lemma process_after_all (image : Image F) (dst : list Z) (exposure : F) :
  process op image dst exposure
  = after_pixels op image dst exposure
      (Z.to_nat (getSize image).2 * Z.to_nat (getSize image).1).
Proof using Hstored.
  rewrite process_stored, after_pixels_stored.
  rewrite firstn_all2; [done|]. by rewrite scan_order_length.
Qed.

Lemma process_result (image : Image F) (dst : list Z) (exposure : F) :
  let w := Z.to_nat (getSize image).1 in
  let h := Z.to_nat (getSize image).2 in
  let delta := lit 1 / of_int (int_mul (getSize image).1 (getSize image).2) in
  (3 * (h * w) ≤ length dst)%nat →
  process op image dst exposure
  = Ok (mkState
          (flat_map (pixel_bytes image exposure gamma Ldmax Lwa Lwmax b start slope)
             (scan_order w h) ++ drop (3 * (h * w)) dst)
          (3 * (h * w))
          (accumulate delta (h * w) (lit 0))).
Proof using Hstored.
  intros w h delta Hcap.
  rewrite process_after_all, after_pixels_result by done.
  fold w h. rewrite firstn_all2; [done|]. by rewrite scan_order_length.
Qed.

End Operator.

(** A freshly constructed operator that has seen an image stores all seven
    values. *)
Lemma stored_after_setParameters {F : Type} `{Arith F} (image : Image F) :
  stored (setParameters image new)
    (lit 2.2) (lit 100) (getLogAverageLuminance image) (getMaximumLuminance image)
    (lit 0.85) (lit 0.018) (lit 4.5).
Proof. repeat split. Qed.

Lemma scan_order_nil (w h : nat) : (h * w = 0)%nat → scan_order w h = [].
Proof. intros Hz. apply nil_length_inv. by rewrite scan_order_length. Qed.

(** ** The claims that hold in every arithmetic *)

Section Claims.
Context {F : Type} `{Arith F} `{Elementary F}.
Local Open Scope fl_scope.

(** C1: for every input value, exposure and parameter values, [map] computes
    the eight steps of the specification's section 4.3: the adapted average
    and maximum luminance, the normalised sample, the bias exponent, the
    display-scale constant [c1], the compression term [c2], their product,
    and the two-branch gamma correction. *)
Theorem map_is_drago_reference (v e Gamma Ldmax Lwa Lwmax b start slope : F) :
  map v e Gamma Ldmax Lwa Lwmax b start slope
  = drago_reference v e Gamma Ldmax Lwa Lwmax b start slope.
Proof. reflexivity. Qed.

(** C3: whatever values the operator stores, [graph v] is [map] of [v] at
    exposure 1 with those values: the same formula in the same arithmetic,
    returned as it is, neither clamped nor quantized. *)
Theorem graph_is_map_at_exposure_one
    (op : TonemapOperator F) (gamma Ldmax Lwa Lwmax b start slope v : F) :
  stored op gamma Ldmax Lwa Lwmax b start slope →
  graph op v = Ok (map v (lit 1) gamma Ldmax Lwa Lwmax b start slope).
Proof. intros Hst. by apply graph_stored. Qed.

(** C6: for a w x h image and a destination of at least 3 w h bytes,
    [process] returns, and the bytes of the pixel in row i and column j are
    at offsets 3 (i w + j), + 1 and + 2, in the order R, G, B; nothing else
    of the buffer changes.  The pixels are written in row-major order from
    row 0: after k pixels exactly the first 3 k bytes of the final buffer are
    in place. *)
Theorem process_row_major
    (op : TonemapOperator F) (gamma Ldmax Lwa Lwmax b start slope : F)
    (image : Image F) (dst : list Z) (exposure : F) :
  let w := Z.to_nat (getSize image).1 in
  let h := Z.to_nat (getSize image).2 in
  let delta := lit 1 / of_int (int_mul (getSize image).1 (getSize image).2) in
  let channel c := quantize (map c exposure gamma Ldmax Lwa Lwmax b start slope) in
  stored op gamma Ldmax Lwa Lwmax b start slope →
  (3 * (h * w) ≤ length dst)%nat →
  ∃ st, process op image dst exposure = Ok st
    ∧ length (buf st) = length dst
    ∧ ptr st = (3 * (h * w))%nat
    ∧ (∀ i j, (i < h)%nat → (j < w)%nat →
         buf st !! (3 * (i * w + j))%nat = Some (channel (r (ref image i j)))
         ∧ buf st !! (3 * (i * w + j) + 1)%nat = Some (channel (g (ref image i j)))
         ∧ buf st !! (3 * (i * w + j) + 2)%nat = Some (channel (Tonemap.b (ref image i j))))
    ∧ (∀ n, (3 * (h * w) ≤ n)%nat → buf st !! n = dst !! n)
    ∧ (∀ k, (k ≤ h * w)%nat →
         after_pixels op image dst exposure k
         = Ok (mkState (take (3 * k) (buf st) ++ drop (3 * k) dst) (3 * k)
                 (accumulate delta k (lit 0)))).
Proof.
  intros w h delta channel Hst Hcap.
  set (bytes := pixel_bytes image exposure gamma Ldmax Lwa Lwmax b start slope).
  assert (∀ a, length (bytes a) = 3%nat) as Hb3 by done.
  assert (length (flat_map bytes (scan_order w h)) = (3 * (h * w))%nat) as Hlen.
  { by rewrite flat_map_length3, scan_order_length. }
  eexists. split; [exact (process_result op _ _ _ _ _ _ _ Hst image dst exposure Hcap)|].
  cbn [buf ptr]. fold w h bytes.
  assert (∀ i j c, (i < h)%nat → (j < w)%nat → (c < 3)%nat →
            (flat_map bytes (scan_order w h) ++ drop (3 * (h * w)) dst)
              !! (3 * (i * w + j) + c)%nat = bytes (i, j) !! c) as Hbyte.
  { intros i j c Hi Hj Hc.
    rewrite lookup_app_l by (rewrite Hlen; nia).
    apply flat_map_lookup3; [done| |done]. by apply scan_order_lookup. }
  split; [|split; [|split; [|split]]].
  - rewrite length_app, Hlen, length_drop. lia.
  - done.
  - intros i j Hi Hj. split; [|split].
    + rewrite <- (Nat.add_0_r (3 * _)). by rewrite Hbyte by (done || lia).
    + by rewrite Hbyte by (done || lia).
    + by rewrite Hbyte by (done || lia).
  - intros n Hn. rewrite lookup_app_r; rewrite Hlen; [|done].
    rewrite lookup_drop. f_equal. lia.
  - intros k Hk.
    rewrite (after_pixels_result op _ _ _ _ _ _ _ Hst) by (done || lia).
    fold w h bytes delta. do 3 f_equal.
    rewrite take_app_le by (rewrite Hlen; lia).
    by apply flat_map_take3.
Qed.

(** C10: for an image without pixels (width * height = 0), [process] sets the
    progress cell to 0, visits no pixel, stores nothing in the destination
    and returns with the cell still 0; so the cell never holds 1.0. *)
Theorem process_empty_image
    (op : TonemapOperator F) (gamma Ldmax Lwa Lwmax b start slope : F)
    (image : Image F) (dst : list Z) (exposure : F) :
  stored op gamma Ldmax Lwa Lwmax b start slope →
  ((getSize image).1 * (getSize image).2 = 0)%Z →
  scan_order (Z.to_nat (getSize image).1) (Z.to_nat (getSize image).2) = []
  ∧ process op image dst exposure = Ok (mkState dst 0 (lit 0))
  ∧ (∀ st, process op image dst exposure = Ok st →
       buf st = dst ∧ progress st = lit 0
       ∧ (lit 0 ≠ (lit 1 : F) → progress st ≠ lit 1)).
Proof.
  intros Hst Hsize.
  assert (scan_order (Z.to_nat (getSize image).1) (Z.to_nat (getSize image).2) = [])
    as Hnil by (apply scan_order_nil; nia).
  assert (process op image dst exposure = Ok (mkState dst 0 (lit 0))) as Hp.
  { rewrite (process_stored _ _ _ _ _ _ _ _ Hst), Hnil. done. }
  split; [done|]. split; [done|].
  intros st Hok. rewrite Hp in Hok. injection Hok as <-.
  cbn [buf progress]. auto.
Qed.

(** C4, with the cast in place of rounding: for a 1 x 1 image whose pixel is
    [v] on all three channels, at exposure 1, each of the three bytes that
    [process] stores is the [uint8_t] cast (a truncation) of
    [clamp (255 * graph v) 0 255]. *)
Theorem process_quantizes_graph
    (op : TonemapOperator F) (gamma Ldmax Lwa Lwmax b start slope : F)
    (image : Image F) (dst : list Z) (v : F) :
  stored op gamma Ldmax Lwa Lwmax b start slope →
  getSize image = (1, 1)%Z →
  ref image 0 0 = mkColor v v v →
  (3 ≤ length dst)%nat →
  ∃ st y, process op image dst (lit 1) = Ok st
    ∧ graph op v = Ok y
    ∧ buf st !! 0%nat = Some (to_uint8 (clamp (lit 255 * y) (lit 0) (lit 255))%fl)
    ∧ buf st !! 1%nat = Some (to_uint8 (clamp (lit 255 * y) (lit 0) (lit 255))%fl)
    ∧ buf st !! 2%nat = Some (to_uint8 (clamp (lit 255 * y) (lit 0) (lit 255))%fl).
Proof.
  intros Hst Hsize Hpix Hcap.
  eexists _, _. split; [|split].
  - apply (process_result _ _ _ _ _ _ _ _ Hst). rewrite Hsize. simpl. lia.
  - apply (graph_stored _ _ _ _ _ _ _ _ Hst).
  - cbn [buf]. rewrite Hsize.
    change (scan_order (Z.to_nat (1%Z, 1%Z).1) (Z.to_nat (1%Z, 1%Z).2)) with [(0, 0)%nat].
    unfold pixel_bytes, flat_map. cbn [fst snd]. rewrite Hpix.
    cbn [r g Tonemap.b]. done.
Qed.

End Claims.

(** C8: [setParameters] overwrites the entries "Lwa" and "Lwmax" with computed
    parameters holding the image's log-average and maximum luminance, leaves
    every other entry of the parameter map and the operator's name,
    description and shader as they were, and a later call overwrites what an
    earlier one stored. *)
Theorem setParameters_frame {F : Type} (image : Image F) (op : TonemapOperator F) :
  parameters (setParameters image op) !! "Lwa"
    = Some (Parameter_computed (getLogAverageLuminance image) "Lwa")
  ∧ parameters (setParameters image op) !! "Lwmax"
    = Some (Parameter_computed (getMaximumLuminance image) "Lwmax")
  ∧ (∀ key : string, key ≠ "Lwa" → key ≠ "Lwmax" →
       parameters (setParameters image op) !! key = parameters op !! key)
  ∧ name (setParameters image op) = name op
  ∧ opDescription (setParameters image op) = opDescription op
  ∧ shader (setParameters image op) = shader op
  ∧ (∀ earlier : Image F,
       setParameters image (setParameters earlier op) = setParameters image op).
Proof.
  unfold setParameters; cbn [parameters name opDescription shader].
  repeat split.
  - rewrite lookup_insert_ne by done. apply lookup_insert_eq.
  - apply lookup_insert_eq.
  - intros key Ha Hm. by rewrite !lookup_insert_ne.
  - intros earlier. f_equal. apply map_eq; intros key.
    destruct (decide (key = "Lwmax")) as [->|Hm]; [by rewrite !lookup_insert_eq|].
    rewrite !(lookup_insert_ne _ "Lwmax") by done.
    destruct (decide (key = "Lwa")) as [->|Ha]; [by rewrite !lookup_insert_eq|].
    by rewrite !lookup_insert_ne.
Qed.

(** ** Exact arithmetic *)

Ltac exact_arith :=
  cbn [lit of_int fadd fsub fmul fdiv fle flt fpow flog flog10
       Exact.arith Exact.elementary] in *.
Ltac literals := unfold Q2R in *; cbn [Qnum Qden] in *.

Section ExactFacts.
Local Open Scope R_scope.

Lemma Rpower_root (a : R) (n : nat) :
  0 < a → (0 < n)%nat → Rpower (a ^ n) (/ INR n) = a.
Proof.
  intros Ha Hn. rewrite <- Rpower_pow by done. rewrite Rpower_mult.
  rewrite Rinv_r; [by apply Rpower_1|]. apply not_0_INR. lia.
Qed.

Lemma Rpower_frac (x : R) (m n : nat) :
  0 < x → Rpower x (INR m / INR n) = Rpower (x ^ m) (/ INR n).
Proof. intros Hx. rewrite <- Rpower_pow by done. by rewrite Rpower_mult. Qed.

(** A rational power is bounded by comparing integer powers. *)
Lemma Rpower_lower (x a : R) (m n : nat) :
  0 < a → 0 < x → (0 < n)%nat → a ^ n < x ^ m → a < Rpower x (INR m / INR n).
Proof.
  intros Ha Hx Hn Hlt. rewrite Rpower_frac by done.
  rewrite <- (Rpower_root a n) at 1 by done.
  apply Rlt_Rpower_l; [|split; [by apply pow_lt|done]].
  apply Rinv_0_lt_compat, lt_0_INR. lia.
Qed.

Lemma Rpower_upper (x a : R) (m n : nat) :
  0 < a → 0 < x → (0 < n)%nat → x ^ m < a ^ n → Rpower x (INR m / INR n) < a.
Proof.
  intros Ha Hx Hn Hlt. rewrite Rpower_frac by done.
  rewrite <- (Rpower_root a n) at 1 by done.
  apply Rlt_Rpower_l; [|split; [by apply pow_lt|done]].
  apply Rinv_0_lt_compat, lt_0_INR. lia.
Qed.

Lemma Rpower_base_1 (y : R) : Rpower 1 y = 1.
Proof. unfold Rpower. by rewrite ln_1, Rmult_0_r, exp_0. Qed.

Lemma Rpower_pos (x y : R) : 0 < Rpower x y.
Proof. unfold Rpower. apply exp_pos. Qed.

Lemma ln_pos (x : R) : 1 < x → 0 < ln x.
Proof. intros Hx. rewrite <- ln_1. apply ln_increasing; lra. Qed.

(** The exponent [0.9 / gamma] at the default gamma 2.2. *)
Lemma default_exponent : Q2R 0.9 / Q2R 2.2 = INR 9 / INR 22.
Proof. literals. simpl INR. lra. Qed.

(** In exact arithmetic the brightest pixel, [v = Lwmax], is compressed to
    [Ldmax / 100], whatever the exposure, the average and the bias are. *)
Lemma compressed_at_Lwmax (e Ldmax Lwa Lwmax b : R) :
  0 < e → 0 < Lwa → 0 < Lwmax → -0.15 < b →
  compressed Lwmax e Ldmax Lwa Lwmax b = Ldmax / 100.
Proof.
  intros He Ha Hm _. unfold compressed. exact_arith.
  set (P := Rpower _ _). assert (0 < P) as HP by apply Rpower_pos.
  set (M := e * Lwmax / (e * Lwa / P)).
  assert (0 < M) as HM.
  { unfold M. apply Rdiv_lt_0_compat; [nra|]. apply Rdiv_lt_0_compat; nra. }
  replace (M / M) with 1 by (field; lra).
  rewrite Rpower_base_1. literals.
  replace (2 * / 1 + 8 * / 1 * 1) with 10 by lra.
  replace (1 * / 1 + M) with (1 + M) by lra.
  pose proof (ln_pos (1 + M) ltac:(lra)). pose proof (ln_pos 10 ltac:(lra)).
  field. lra.
Qed.

Lemma trunc_between (x : R) (z : Z) :
  0 <= x → IZR z <= x < IZR z + 1 → Exact.trunc x = z.
Proof.
  intros Hx Hz. unfold Exact.trunc. rewrite decide_True by done.
  symmetry. apply Int_part_spec. lra.
Qed.

Lemma round_between (x : R) (z : Z) :
  IZR z - / 2 <= x < IZR z + / 2 → Exact.round x = z.
Proof.
  intros Hz. unfold Exact.round. symmetry. apply Int_part_spec. lra.
Qed.


(** [map] is the gamma correction of the compressed value, in any
    arithmetic. *)
Lemma map_gammaCorrect {F : Type} `{Arith F} `{Elementary F}
    (v e gamma Ldmax Lwa Lwmax b start slope : F) :
  map v e gamma Ldmax Lwa Lwmax b start slope
  = gammaCorrect gamma start slope (compressed v e Ldmax Lwa Lwmax b).
Proof. reflexivity. Qed.

(** In exact arithmetic the shader computes the same compressed value, clamps
    it to [0, 1] and only then corrects gamma. *)
Lemma fragment_gammaCorrect (t e gamma Ldmax Lwa Lwmax b start slope : R) :
  fragment t e gamma Ldmax Lwa Lwmax b start slope
  = gammaCorrect gamma start slope (clampedValue (compressed t e Ldmax Lwa Lwmax b)).
Proof.
  unfold fragment, compressed. exact_arith. literals.
  replace (10 * / 10) with (1 * / 1) by lra.
  replace (5 * / 1) with 5 by lra.
  replace (20 * / 10) with (2 * / 1) by lra.
  replace (100 * / 10) with 10 by lra.
  replace (8 * / 1) with 8 by lra.
  set (M := e * Lwmax / _). set (x := e * t / _).
  replace (x + 1) with (1 * / 1 + x) by lra.
  replace (1 + M) with (1 * / 1 + M) by lra.
  done.
Qed.

(** Where the compressed value is within [0, 1] the clamp is the identity
    and the shader returns what [map] returns. *)
Lemma fragment_agrees_in_range (v e gamma Ldmax Lwa Lwmax b start slope : R) :
  0 <= compressed v e Ldmax Lwa Lwmax b <= 1 →
  fragment v e gamma Ldmax Lwa Lwmax b start slope
  = map v e gamma Ldmax Lwa Lwmax b start slope.
Proof.
  intros Hc. rewrite fragment_gammaCorrect, map_gammaCorrect. f_equal.
  unfold clampedValue, glsl_clamp, glsl_max, glsl_min. exact_arith.
  set (c := compressed _ _ _ _ _ _) in *.
  rewrite (bool_decide_eq_false_2 (c < Q2R 0.0)) by (literals; lra).
  rewrite bool_decide_eq_false_2 by (literals; lra). done.
Qed.

(** The default gamma branch at compressed value 1. *)
Lemma gamma_branch_at_1 :
  0.9393 < Rpower (lit 1.099 * 1) (lit 0.9 / lit 2.2)%fl - lit 0.099 < 0.9411.
Proof.
  exact_arith. rewrite default_exponent. literals.
  replace (1099 * / 1000 * 1) with 1.099 by lra.
  pose proof (Rpower_lower 1.099 1.0383 9 22 ltac:(lra) ltac:(lra) ltac:(lia) ltac:(lra)).
  pose proof (Rpower_upper 1.099 1.0401 9 22 ltac:(lra) ltac:(lra) ltac:(lia) ltac:(lra)).
  lra.
Qed.

Lemma unit_map_value :
  map 1 (lit 1) (lit 2.2) (lit 100) 1 1 (lit 0.85) (lit 0.018) (lit 4.5)
  = Rpower (lit 1.099 * 1) (lit 0.9 / lit 2.2)%fl - lit 0.099.
Proof.
  rewrite map_gammaCorrect.
  replace (lit 1 : R) with 1 by (exact_arith; literals; lra).
  rewrite compressed_at_Lwmax by (exact_arith; literals; lra).
  replace (lit 100 / 100) with 1 by (exact_arith; literals; lra).
  unfold gammaCorrect. exact_arith.
  rewrite bool_decide_eq_false_2; [done|]. literals. lra.
Qed.

Lemma quantize_between (y : R) (z : Z) :
  (0 <= z < 255)%Z → IZR z <= 255 * y < IZR z + 1 → quantize y = z.
Proof.
  intros Hz Hy. unfold quantize, clamp. exact_arith.
  assert (0 <= IZR z) by (apply IZR_le; lia).
  assert (IZR z + 1 <= 255) by (rewrite <- plus_IZR; apply IZR_le; lia).
  replace (Q2R 255) with 255 by (literals; lra).
  replace (Q2R 0) with 0 by (literals; lra).
  rewrite bool_decide_eq_false_2 by lra.
  rewrite bool_decide_eq_false_2 by lra.
  apply trunc_between; lra.
Qed.


Lemma stored_drago :
  stored Exact.drago (lit 2.2) (lit 100) 1 1 (lit 0.85) (lit 0.018) (lit 4.5).
Proof. apply (stored_after_setParameters Exact.unit_image). Qed.

Lemma stored_drago_bright :
  stored Exact.drago_bright (lit 2.2) 200 1 1 (lit 0.85) (lit 0.018) (lit 4.5).
Proof. repeat split. Qed.

(** Against C4 as worded: with the constructor's parameters and the
    statistics of the 1 x 1 image whose pixel is 1 on all channels, [process]
    at exposure 1 stores the byte 239 on each channel, while rounding
    [clamp (graph 1) 0 1 * 255] gives 240. *)
Lemma process_truncates_not_rounds :
  ∃ st y,
    process Exact.drago Exact.unit_image [0; 0; 0]%Z (lit 1) = Ok st
    ∧ graph Exact.drago 1 = Ok y
    ∧ buf st = [239; 239; 239]%Z
    ∧ Exact.round (clamp y (lit 0) (lit 1) * 255) = 240%Z.
Proof.
  pose proof gamma_branch_at_1 as Hb. rewrite <- unit_map_value in Hb.
  eexists _, _. split; [|split; [|split]].
  - apply (process_result _ _ _ _ _ _ _ _ stored_drago). simpl. lia.
  - apply (graph_stored _ _ _ _ _ _ _ _ stored_drago).
  - cbn [buf].
    set (q := quantize (map 1 (lit 1) (lit 2.2) (lit 100) 1 1 (lit 0.85) (lit 0.018) (lit 4.5))).
    change ([q; q; q] = [239; 239; 239]%Z).
    unfold q. rewrite (quantize_between _ 239); [done|lia|lra].
  - unfold clamp. exact_arith.
    replace (Q2R 0) with 0 by (literals; lra).
    replace (Q2R 1) with 1 in * by (literals; lra).
    rewrite bool_decide_eq_false_2 by lra.
    rewrite bool_decide_eq_false_2 by lra.
    apply round_between. lra.
Qed.

(** C9: in exact arithmetic, and for every reading of [pow], [log] and
    [log10], [map] does not depend on the exposure: for e <> 0, Lwa <> 0 and
    (1 + b - 0.85)^5 <> 0 the factor e cancels from the adapted maximum
    luminance and from the normalised sample, so [map v e] is [map v 1]; hence
    [process] yields the same bytes (and the same progress) at exposure e as
    at exposure 1. *)
Theorem map_exposure_invariant {E : Elementary R}
    (v e gamma Ldmax Lwa Lwmax b start slope : R) :
  e ≠ 0 → Lwa ≠ 0 → fpow (lit 1 + b - lit 0.85)%fl (lit 5) ≠ 0 →
  map v e gamma Ldmax Lwa Lwmax b start slope
  = map v (lit 1) gamma Ldmax Lwa Lwmax b start slope
  ∧ (∀ (op : TonemapOperator R) (image : Image R) (dst : list Z),
       stored op gamma Ldmax Lwa Lwmax b start slope →
       process op image dst e = process op image dst (lit 1)).
Proof.
  intros He Ha HP.
  assert (∀ u, map u e gamma Ldmax Lwa Lwmax b start slope
               = map u (lit 1) gamma Ldmax Lwa Lwmax b start slope) as Hmap.
  { intros u. unfold map. exact_arith.
    set (P := fpow _ _) in *.
    replace (Q2R 1 * Lwmax / (Q2R 1 * Lwa / P)) with (e * Lwmax / (e * Lwa / P))
      by (literals; field; done).
    replace (Q2R 1 * u / (Q2R 1 * Lwa / P)) with (e * u / (e * Lwa / P))
      by (literals; field; done).
    done. }
  split; [apply Hmap|].
  intros op image dst Hst.
  rewrite !(process_stored _ _ _ _ _ _ _ _ Hst).
  apply foldM_ext. intros ij st. unfold pixel. by rewrite !Hmap.
Qed.


(** C2, evaluated where it fails: with the display luminance edited to 200
    and the other values as constructed, the brightest pixel has the
    compressed value 2.  [map], which [graph] and [process] use, corrects
    gamma on 2 and returns more than 1; the shader clamps 2 to 1 first and
    returns less than 0.9411.  The two paths order the clamp and the gamma
    correction differently. *)
Theorem fragment_clamps_before_gamma :
  ∃ y, graph Exact.drago_bright 1 = Ok y
    ∧ y = map 1 (lit 1) (lit 2.2) 200 1 1 (lit 0.85) (lit 0.018) (lit 4.5)
    ∧ 1 < y
    ∧ fragment 1 (lit 1) (lit 2.2) 200 1 1 (lit 0.85) (lit 0.018) (lit 4.5) < 0.9411.
Proof.
  eexists. split; [apply (graph_stored _ _ _ _ _ _ _ _ stored_drago_bright)|].
  split; [done|].
  assert (compressed 1 (lit 1) 200 1 1 (lit 0.85) = 2) as Hc.
  { replace (lit 1 : R) with 1 by (exact_arith; literals; lra).
    rewrite compressed_at_Lwmax by (exact_arith; literals; lra). lra. }
  split.
  - rewrite map_gammaCorrect, Hc. unfold gammaCorrect. exact_arith.
    rewrite bool_decide_eq_false_2 by (literals; lra).
    rewrite default_exponent.
    replace (Q2R 1.099 * 2) with 2.198 by (literals; lra).
    pose proof (Rpower_lower 2.198 1.099 9 22 ltac:(lra) ltac:(lra) ltac:(lia) ltac:(lra)).
    literals. lra.
  - rewrite fragment_gammaCorrect, Hc.
    assert (clampedValue 2 = 1) as ->.
    { unfold clampedValue, glsl_clamp, glsl_max, glsl_min. exact_arith.
      rewrite (bool_decide_eq_false_2 (2 < Q2R 0.0)) by (literals; lra).
      rewrite bool_decide_eq_true_2 by (literals; lra).
      literals. lra. }
    unfold gammaCorrect. exact_arith.
    rewrite bool_decide_eq_false_2 by (literals; lra).
    pose proof gamma_branch_at_1 as Hb. exact_arith. lra.
Qed.

(** C7, evaluated at the defaults gamma = 2.2, start = 0.018, slope = 4.5:
    when the compressed value equals [start] the linear branch is taken and
    [map] returns 4.5 * 0.018 = 0.081; for every compressed value above
    [start] the gamma branch returns more than 0.101.  Both cases occur (the
    brightest pixel at Ldmax = 1.8 and at any larger Ldmax), so the two
    branches are 0.02 apart at [start]. *)
Theorem gamma_correction_jumps_at_start :
  (∀ v e Ldmax Lwa Lwmax b : R,
     let c := compressed v e Ldmax Lwa Lwmax b in
     let y := map v e (lit 2.2) Ldmax Lwa Lwmax b (lit 0.018) (lit 4.5) in
     (c = lit 0.018 → y = 0.081) ∧ (lit 0.018 < c → 0.101 < y))
  ∧ compressed 1 1 1.8 1 1 (lit 0.85) = lit 0.018
  ∧ (∀ Ldmax, 1.8 < Ldmax → lit 0.018 < compressed 1 1 Ldmax 1 1 (lit 0.85)).
Proof.
  split; [|split].
  - intros v e Ldmax Lwa Lwmax b c y. subst y. rewrite map_gammaCorrect. fold c.
    unfold gammaCorrect. exact_arith. split.
    + intros ->. rewrite bool_decide_eq_true_2 by lra. literals. lra.
    + intros Hc. rewrite bool_decide_eq_false_2 by lra.
      rewrite default_exponent.
      pose proof (Rpower_lower 0.019782 0.2 9 22 ltac:(lra) ltac:(lra) ltac:(lia) ltac:(lra)).
      assert (Rpower 0.019782 (INR 9 / INR 22) < Rpower (Q2R 1.099 * c) (INR 9 / INR 22)).
      { apply Rlt_Rpower_l; [simpl INR; lra|]. literals. lra. }
      literals. lra.
  - rewrite compressed_at_Lwmax by (exact_arith; literals; lra). exact_arith. literals. lra.
  - intros Ldmax HL. rewrite compressed_at_Lwmax by (exact_arith; literals; lra). exact_arith. literals. lra.
Qed.


Lemma accumulate_exact (delta : R) (n : nat) (p : R) :
  accumulate delta n p = p + INR n * delta.
Proof.
  induction n as [|n IH].
  - unfold accumulate. simpl. lra.
  - change (accumulate delta (S n) p) with (accumulate delta n p + delta).
    rewrite IH, S_INR. lra.
Qed.

Lemma int_wrap_in_range (z : Z) : (- 2 ^ 31 ≤ z < 2 ^ 31)%Z → int_wrap z = z.
Proof. intros Hz. unfold int_wrap. rewrite Z.mod_small; lia. Qed.


(** In exact arithmetic, over a w x h image with w, h >= 1 and fewer than
    2^31 pixels, the progress cell starts at 0, holds k / (w h) after k
    pixels, so it grows by exactly 1 / (w h) with every pixel and never
    decreases; [process] returns the state after all w h pixels, where the
    cell is exactly 1. *)
Lemma process_progress_exact {E : Elementary R}
    (op : TonemapOperator R) (gamma Ldmax Lwa Lwmax b start slope : R)
    (image : Image R) (dst : list Z) (exposure : R) :
  let w := (getSize image).1 in
  let h := (getSize image).2 in
  let after := after_pixels op image dst exposure in
  stored op gamma Ldmax Lwa Lwmax b start slope →
  (1 ≤ w)%Z → (1 ≤ h)%Z → (w * h < 2 ^ 31)%Z →
  (3 * (Z.to_nat h * Z.to_nat w) ≤ length dst)%nat →
  (∃ st, after 0%nat = Ok st ∧ progress st = 0)
  ∧ (∀ k, (k ≤ Z.to_nat h * Z.to_nat w)%nat →
       ∃ st, after k = Ok st ∧ progress st = INR k / IZR (w * h))
  ∧ (∀ k, (k < Z.to_nat h * Z.to_nat w)%nat →
       ∃ st st', after k = Ok st ∧ after (S k) = Ok st'
         ∧ progress st' = progress st + 1 / IZR (w * h)
         ∧ progress st <= progress st')
  ∧ process op image dst exposure = after (Z.to_nat h * Z.to_nat w)%nat
  ∧ (∃ st, process op image dst exposure = Ok st ∧ progress st = 1).
Proof.
  intros w h after Hst Hw Hh Hint Hcap.
  assert (0 < IZR (w * h)) as Hwh by (apply IZR_lt; nia).
  assert (INR (Z.to_nat h * Z.to_nat w) = IZR (w * h)) as Hn.
  { rewrite INR_IZR_INZ. f_equal. nia. }
  assert (∀ k, (k ≤ Z.to_nat h * Z.to_nat w)%nat →
            ∃ st, after k = Ok st ∧ progress st = INR k / IZR (w * h)) as Hk.
  { intros k Hle. eexists. split.
    - apply (after_pixels_result _ _ _ _ _ _ _ _ Hst); [done|lia].
    - cbn [progress]. rewrite accumulate_exact. fold w h.
      unfold int_mul. rewrite int_wrap_in_range by nia.
      exact_arith. literals. field. lra. }
  split; [|split; [done|split; [|split]]].
  - destruct (Hk 0%nat ltac:(lia)) as (st & Hs & Hp).
    exists st. split; [done|]. rewrite Hp. simpl INR. lra.
  - intros k Hlt.
    destruct (Hk k ltac:(lia)) as (st & Hs & Hp).
    destruct (Hk (S k) ltac:(lia)) as (st' & Hs' & Hp').
    exists st, st'. split; [done|]. split; [done|].
    rewrite Hp, Hp', S_INR.
    assert (0 < 1 / IZR (w * h)) by (apply Rdiv_lt_0_compat; lra).
    split; [field; lra|].
    replace ((INR k + 1) / IZR (w * h)) with (INR k / IZR (w * h) + 1 / IZR (w * h))
      by (field; lra).
    lra.
  - apply (process_after_all _ _ _ _ _ _ _ _ Hst).
  - destruct (Hk _ (Nat.le_refl _)) as (st & Hs & Hp).
    exists st. split.
    + by rewrite (process_after_all _ _ _ _ _ _ _ _ Hst).
    + rewrite Hp, Hn. field. lra.
Qed.

End ExactFacts.

(** ** Single precision *)

(** C5, evaluated where it fails: in single precision, over a 200 x 200
    image, [process] returns with the progress cell at
    16769527 / 2^24 = 0.99954..., more than 1e-4 away from 1.0, whatever the
    pixels, the parameters, the exposure and the elementary functions are: the
    40000 rounded additions of the rounded [delta] do not add up to 1. *)
Lemma process_progress_binary32_drifts :
  (∀ (E : Elementary spec_float) (op : TonemapOperator spec_float)
      (gamma Ldmax Lwa Lwmax b start slope : spec_float)
      (dst : list Z) (exposure : spec_float),
     stored op gamma Ldmax Lwa Lwmax b start slope →
     (120000 ≤ Z.of_nat (length dst))%Z →
     ∃ st, process op Binary32.black_image dst exposure = Ok st
       ∧ progress st = S754_finite false 16769527 (-24))
  ∧ Binary32.to_Q (S754_finite false 16769527 (-24)) = Some (Qmake 16769527 16777216)
  ∧ (Qmake 1 10000 < 1 - Qmake 16769527 16777216)%Q.
Proof.
  split; [|split; [done|done]].
  intros E op gamma Ldmax Lwa Lwmax b start slope dst exposure Hst Hcap.
  eexists. split.
  - apply (process_result _ _ _ _ _ _ _ _ Hst).
    cbn [getSize Binary32.black_image fst snd]. lia.
  - cbn [progress getSize Binary32.black_image fst snd].
    vm_compute. reflexivity.
Qed.

(** ** The hypotheses are satisfiable *)

Lemma graph_is_map_at_exposure_one_witness :
  graph Exact.drago 3%R
  = Ok (map 3%R (lit 1) (lit 2.2) (lit 100) 1%R 1%R (lit 0.85) (lit 0.018) (lit 4.5)).
Proof.
  apply (graph_is_map_at_exposure_one Exact.drago
           (lit 2.2) (lit 100) 1%R 1%R (lit 0.85) (lit 0.018) (lit 4.5) 3%R).
  apply stored_drago.
Defined.

Lemma process_quantizes_graph_witness :
  ∃ st y, process Exact.drago Exact.unit_image [7; 7; 7; 7]%Z (lit 1) = Ok st
    ∧ graph Exact.drago 1%R = Ok y
    ∧ buf st !! 0%nat = Some (to_uint8 (clamp (lit 255 * y) (lit 0) (lit 255))%fl)
    ∧ buf st !! 1%nat = Some (to_uint8 (clamp (lit 255 * y) (lit 0) (lit 255))%fl)
    ∧ buf st !! 2%nat = Some (to_uint8 (clamp (lit 255 * y) (lit 0) (lit 255))%fl).
Proof.
  apply (process_quantizes_graph Exact.drago (lit 2.2) (lit 100) 1%R 1%R (lit 0.85) (lit 0.018) (lit 4.5) Exact.unit_image
           [7; 7; 7; 7]%Z 1%R).
  - apply stored_drago.
  - reflexivity.
  - reflexivity.
  - simpl. lia.
Defined.

Lemma process_progress_exact_witness :
  ∃ st, process Exact.drago Exact.grid_image (replicate 18 0%Z) 2%R = Ok st
    ∧ progress st = 1%R.
Proof.
  apply (process_progress_exact (E := Exact.elementary) Exact.drago
           (lit 2.2) (lit 100) 1%R 1%R (lit 0.85) (lit 0.018) (lit 4.5) Exact.grid_image
           (replicate 18 0%Z) 2%R).
  - apply stored_drago.
  - simpl. lia.
  - simpl. lia.
  - simpl. lia.
  - simpl. lia.
Defined.

Lemma process_row_major_witness :
  ∃ st, process Exact.drago Exact.grid_image (replicate 20 0%Z) 2%R = Ok st
    ∧ length (buf st) = 20%nat
    ∧ ptr st = 18%nat.
Proof.
  destruct (process_row_major Exact.drago
              (lit 2.2) (lit 100) 1%R 1%R (lit 0.85) (lit 0.018) (lit 4.5) Exact.grid_image
              (replicate 20 0%Z) 2%R stored_drago) as (st & Hp & Hl & Hq & _).
  - simpl. lia.
  - exists st. split; [exact Hp|]. split; [exact Hl|exact Hq].
Defined.

Lemma map_exposure_invariant_witness :
  map 3%R 2%R (lit 2.2) (lit 100) 1%R 4%R (lit 0.85) (lit 0.018) (lit 4.5)
  = map 3%R (lit 1) (lit 2.2) (lit 100) 1%R 4%R (lit 0.85) (lit 0.018) (lit 4.5).
Proof.
  apply (map_exposure_invariant (E := Exact.elementary)
           3%R 2%R (lit 2.2) (lit 100) 1%R 4%R (lit 0.85) (lit 0.018) (lit 4.5)).
  - lra.
  - lra.
  - apply Rgt_not_eq, Rpower_pos.
Defined.

Lemma process_empty_image_witness :
  process Exact.drago Exact.empty_image [7; 7; 7]%Z 2%R = Ok (mkState [7; 7; 7]%Z 0 (lit 0)).
Proof.
  apply (process_empty_image Exact.drago
           (lit 2.2) (lit 100) 1%R 1%R (lit 0.85) (lit 0.018) (lit 4.5) Exact.empty_image [7; 7; 7]%Z 2%R).
  - apply stored_drago.
  - reflexivity.
Defined.

(** * Further properties of the operator *)

(** ** Failures: missing keys and short buffers *)

Section Failures.
Context {F : Type} `{Arith F} `{Elementary F}.
Local Open Scope fl_scope.

Lemma value_at_cases (op : TonemapOperator F) (key : string) :
  (∃ x, value_at op key = Ok x)
  ∨ (value_at op key = OutOfRange key ∧ parameters op !! key = None).
Proof.
  unfold value_at. destruct (parameters op !! key) as [p|]; [left; by eexists|by right].
Qed.

(** An operator either stores all seven values, or [graph] and [process]
    both throw [out_of_range] for the first of the seven keys, in reading
    order, that the map lacks. *)
Theorem missing_key_throws (op : TonemapOperator F) :
  (∃ gamma Ldmax Lwa Lwmax b start slope, stored op gamma Ldmax Lwa Lwmax b start slope)
  ∨ (∃ key, key ∈ ["Gamma"; "Ldmax"; "Lwa"; "Lwmax"; "b"; "start"; "slope"]
       ∧ parameters op !! key = None
       ∧ (∀ v, graph op v = OutOfRange key)
       ∧ (∀ image dst exposure, process op image dst exposure = OutOfRange key)).
Proof.
  unfold stored, graph, process.
  destruct (value_at_cases op "Gamma") as [[g Hg]|[Hg ?]]; rewrite Hg;
    [|right; exists "Gamma"; split; [set_solver|done]].
  destruct (value_at_cases op "Ldmax") as [[L HL]|[HL ?]]; rewrite HL;
    [|right; exists "Ldmax"; split; [set_solver|done]].
  destruct (value_at_cases op "Lwa") as [[a Ha]|[Ha ?]]; rewrite Ha;
    [|right; exists "Lwa"; split; [set_solver|done]].
  destruct (value_at_cases op "Lwmax") as [[m Hm]|[Hm ?]]; rewrite Hm;
    [|right; exists "Lwmax"; split; [set_solver|done]].
  destruct (value_at_cases op "b") as [[b Hb]|[Hb ?]]; rewrite Hb;
    [|right; exists "b"; split; [set_solver|done]].
  destruct (value_at_cases op "start") as [[s Hs]|[Hs ?]]; rewrite Hs;
    [|right; exists "start"; split; [set_solver|done]].
  destruct (value_at_cases op "slope") as [[l Hl]|[Hl ?]]; rewrite Hl;
    [|right; exists "slope"; split; [set_solver|done]].
  left. by exists g, L, a, m, b, s, l.
Qed.

(** The byte at offset 3 (i w + j) + c is the c-th byte of pixel (i, j). *)
Lemma process_bytes_at
    (op : TonemapOperator F) (gamma Ldmax Lwa Lwmax b start slope : F)
    (image : Image F) (dst : list Z) (exposure : F) :
  let w := Z.to_nat (getSize image).1 in
  let h := Z.to_nat (getSize image).2 in
  stored op gamma Ldmax Lwa Lwmax b start slope →
  (3 * (h * w) ≤ length dst)%nat →
  ∃ st, process op image dst exposure = Ok st
    ∧ buf st = flat_map (pixel_bytes image exposure gamma Ldmax Lwa Lwmax b start slope)
                 (scan_order w h) ++ drop (3 * (h * w)) dst
    ∧ ∀ i j c, (i < h)%nat → (j < w)%nat → (c < 3)%nat →
        buf st !! (3 * (i * w + j) + c)%nat
        = pixel_bytes image exposure gamma Ldmax Lwa Lwmax b start slope (i, j) !! c.
Proof.
  intros w h Hst Hcap.
  eexists. split; [exact (process_result op _ _ _ _ _ _ _ Hst image dst exposure Hcap)|].
  cbn [buf]. fold w h. split; [done|].
  intros i j c Hi Hj Hc.
  rewrite lookup_app_l.
  - apply flat_map_lookup3; [done| |done]. by apply scan_order_lookup.
  - rewrite flat_map_length3 by done. rewrite scan_order_length. nia.
Qed.

(** A destination shorter than three bytes per pixel is overrun. *)
Lemma process_overrun
    (op : TonemapOperator F) (gamma Ldmax Lwa Lwmax b start slope : F)
    (image : Image F) (dst : list Z) (exposure : F) :
  stored op gamma Ldmax Lwa Lwmax b start slope →
  (length dst < 3 * (Z.to_nat (getSize image).2 * Z.to_nat (getSize image).1))%nat →
  process op image dst exposure = Overrun.
Proof.
  intros Hst Hshort.
  rewrite (process_stored _ _ _ _ _ _ _ _ Hst).
  set (w := Z.to_nat (getSize image).1) in *. set (h := Z.to_nat (getSize image).2) in *.
  set (k := (length dst / 3)%nat).
  assert (3 * k ≤ length dst ∧ length dst < 3 * k + 3)%nat as [Hk1 Hk2].
  { unfold k. pose proof (Nat.div_mod_eq (length dst) 3).
    pose proof (Nat.mod_upper_bound (length dst) 3). lia. }
  assert (k < length (scan_order w h))%nat as Hk by (rewrite scan_order_length; lia).
  rewrite <- (take_drop k (scan_order w h)), foldM_app.
  rewrite pixels_run; cbn [ptr buf progress]; rewrite length_take, Nat.min_l by lia; [|lia].
  cbn [mbind outcome_bind].
  destruct (drop k (scan_order w h)) as [|ij rest] eqn:Hd.
  { apply (f_equal length) in Hd. rewrite length_drop in Hd. simpl in Hd. lia. }
  cbn [foldM]. rewrite pixel_overrun; [done|].
  cbn [buf ptr]. rewrite take_0. cbn [app].
  rewrite length_app, flat_map_length3 by done.
  rewrite length_take, length_drop. lia.
Qed.

(** [process] checks no bound: given the stored values it returns exactly
    when the destination holds at least 3 w h bytes, and stores past its end
    otherwise. *)
Theorem process_returns_iff_capacity
    (op : TonemapOperator F) (gamma Ldmax Lwa Lwmax b start slope : F)
    (image : Image F) (dst : list Z) (exposure : F) :
  let pixels := (Z.to_nat (getSize image).2 * Z.to_nat (getSize image).1)%nat in
  stored op gamma Ldmax Lwa Lwmax b start slope →
  ((∃ st, process op image dst exposure = Ok st) ↔ (3 * pixels ≤ length dst)%nat)
  ∧ (process op image dst exposure = Overrun ↔ (length dst < 3 * pixels)%nat).
Proof.
  intros pixels Hst.
  destruct (decide (3 * pixels ≤ length dst)%nat) as [Hcap|Hshort].
  - pose proof (process_result op _ _ _ _ _ _ _ Hst image dst exposure Hcap) as Hp.
    split; split; try done; try lia.
    + intros _. by eexists.
    + intros Ho. rewrite Ho in Hp. done.
  - pose proof (process_overrun op _ _ _ _ _ _ _ image dst exposure Hst ltac:(fold pixels; lia))
      as Hp.
    split; split; try done; try lia.
    intros [st Hs]. rewrite Hs in Hp. done.
Qed.

(** Running [process] again on the buffer it produced changes nothing: the
    result does not depend on what the first 3 w h bytes held before. *)
Theorem process_idempotent
    (op : TonemapOperator F) (gamma Ldmax Lwa Lwmax b start slope : F)
    (image : Image F) (dst : list Z) (exposure : F) (st : ProcState) :
  stored op gamma Ldmax Lwa Lwmax b start slope →
  process op image dst exposure = Ok st →
  process op image (buf st) exposure = Ok st.
Proof.
  intros Hst Hp.
  set (n := (Z.to_nat (getSize image).2 * Z.to_nat (getSize image).1)%nat).
  destruct (decide (3 * n ≤ length dst)%nat) as [Hcap|Hshort].
  - pose proof (process_result op _ _ _ _ _ _ _ Hst image dst exposure Hcap) as Hr.
    rewrite Hp in Hr. injection Hr as ->. cbn [buf].
    match goal with |- process _ _ (?bs ++ _) _ = _ => set (bytes := bs) end.
    assert (length bytes = (3 * n)%nat) as Hlen.
    { unfold bytes. rewrite flat_map_length3 by done. by rewrite scan_order_length. }
    rewrite (process_result op _ _ _ _ _ _ _ Hst); [|rewrite length_app, length_drop; fold n; lia].
    fold n bytes. do 2 f_equal.
    rewrite drop_app_length' by done. done.
  - rewrite (process_overrun op _ _ _ _ _ _ _ image dst exposure Hst) in Hp; [done|fold n; lia].
Qed.

(** No coupling between channels or pixels: for two images of one size, the
    byte of a channel of a pixel is the same as soon as that channel of that
    pixel is, whatever the rest of the images and of the buffers are. *)
Theorem process_channels_independent
    (op : TonemapOperator F) (gamma Ldmax Lwa Lwmax b start slope : F)
    (image1 image2 : Image F) (dst1 dst2 : list Z) (exposure : F) :
  let w := Z.to_nat (getSize image1).1 in
  let h := Z.to_nat (getSize image1).2 in
  stored op gamma Ldmax Lwa Lwmax b start slope →
  getSize image2 = getSize image1 →
  (3 * (h * w) ≤ length dst1)%nat → (3 * (h * w) ≤ length dst2)%nat →
  ∃ st1 st2, process op image1 dst1 exposure = Ok st1
    ∧ process op image2 dst2 exposure = Ok st2
    ∧ ∀ i j, (i < h)%nat → (j < w)%nat →
        (r (ref image1 i j) = r (ref image2 i j) →
           buf st1 !! (3 * (i * w + j))%nat = buf st2 !! (3 * (i * w + j))%nat)
        ∧ (g (ref image1 i j) = g (ref image2 i j) →
           buf st1 !! (3 * (i * w + j) + 1)%nat = buf st2 !! (3 * (i * w + j) + 1)%nat)
        ∧ (Tonemap.b (ref image1 i j) = Tonemap.b (ref image2 i j) →
           buf st1 !! (3 * (i * w + j) + 2)%nat = buf st2 !! (3 * (i * w + j) + 2)%nat).
Proof.
  intros w h Hst Hsize Hc1 Hc2.
  destruct (process_bytes_at op _ _ _ _ _ _ _ image1 dst1 exposure Hst Hc1) as (st1 & Hp1 & _ & Hb1).
  destruct (process_bytes_at op _ _ _ _ _ _ _ image2 dst2 exposure Hst) as (st2 & Hp2 & _ & Hb2).
  { by rewrite Hsize. }
  rewrite Hsize in Hb2. fold w h in Hb1, Hb2.
  exists st1, st2. split; [done|]. split; [done|].
  intros i j Hi Hj.
  pose proof (Hb1 i j 0%nat Hi Hj ltac:(lia)) as H10. pose proof (Hb2 i j 0%nat Hi Hj ltac:(lia)) as H20.
  pose proof (Hb1 i j 1%nat Hi Hj ltac:(lia)) as H11. pose proof (Hb2 i j 1%nat Hi Hj ltac:(lia)) as H21.
  pose proof (Hb1 i j 2%nat Hi Hj ltac:(lia)) as H12. pose proof (Hb2 i j 2%nat Hi Hj ltac:(lia)) as H22.
  rewrite Nat.add_0_r in H10, H20.
  unfold pixel_bytes in *. cbn [fst snd lookup list_lookup] in *.
  split; [|split]; intros Heq.
  - rewrite H10, H20, Heq. done.
  - rewrite H11, H21, Heq. done.
  - rewrite H12, H22, Heq. done.
Qed.

End Failures.

(** ** Exact arithmetic, continued *)

Section ExactMore.
Local Open Scope R_scope.

(** In exact arithmetic the brightest pixel, [v = Lwmax], is mapped to the
    gamma correction of [Ldmax / 100], whatever the exposure, the average
    luminance, the maximum itself and the bias are. *)
Theorem map_at_Lwmax (e gamma Ldmax Lwa Lwmax b start slope : R) :
  0 < e → 0 < Lwa → 0 < Lwmax → 0 < b →
  map Lwmax e gamma Ldmax Lwa Lwmax b start slope
  = gammaCorrect gamma start slope (Ldmax / 100).
Proof.
  intros He Ha Hm Hb. rewrite map_gammaCorrect.
  by rewrite compressed_at_Lwmax by lra.
Qed.

(** Black stays black: for every reading of [pow] that is positive at the
    adapted base and not negative at base 0, a sample 0 is mapped to 0 and
    stored as the byte 0. *)
Theorem map_black (p : R → R → R) (e gamma Ldmax Lwa Lwmax b start slope : R) :
  let E := Exact.with_pow p in
  0 < e → 0 < Lwa → 0 < Lwmax → 0 <= start →
  0 < p (1 + b - 0.85) 5 →
  0 <= p 0 (ln b / ln 0.5) →
  map 0 e gamma Ldmax Lwa Lwmax b start slope = 0
  ∧ quantize (map 0 e gamma Ldmax Lwa Lwmax b start slope) = 0%Z.
Proof.
  intros E He Ha Hm Hs HP Hp0.
  assert (map 0 e gamma Ldmax Lwa Lwmax b start slope = 0) as Hmap.
  { unfold map. cbn [fpow flog flog10 E Exact.with_pow]. exact_arith.
    replace (Q2R 1 + b - Q2R 0.85) with (1 + b - 0.85) by (literals; lra).
    replace (Q2R 5) with 5 by (literals; lra).
    set (P := p _ 5) in *.
    replace (e * 0 / (e * Lwa / P)) with 0 by (unfold Rdiv; ring).
    set (M := e * Lwmax / _).
    replace (0 / M) with 0 by (unfold Rdiv; ring).
    replace (Q2R 1 + 0) with 1 by (literals; lra).
    rewrite ln_1.
    replace (0 / ln (Q2R 2 + Q2R 8 * p 0 (ln b / ln (Q2R 0.5)))) with 0 by (unfold Rdiv; ring).
    rewrite Rmult_0_r.
    rewrite bool_decide_eq_true_2 by lra. ring. }
  split; [done|]. rewrite Hmap.
  apply quantize_between; [lia|lra].
Qed.

(** The unit of luminance does not matter: scaling the sample and the two
    image statistics by one factor leaves [map] unchanged, for every reading
    of [pow], [log] and [log10]. *)
Theorem map_scale_invariant {E : Elementary R}
    (k v e gamma Ldmax Lwa Lwmax b start slope : R) :
  k ≠ 0 → e ≠ 0 → Lwa ≠ 0 → fpow (lit 1 + b - lit 0.85)%fl (lit 5) ≠ 0 →
  map (k * v) e gamma Ldmax (k * Lwa) (k * Lwmax) b start slope
  = map v e gamma Ldmax Lwa Lwmax b start slope.
Proof.
  intros Hk He Ha HP. unfold map. exact_arith.
  set (P := fpow _ _) in *.
  replace (e * (k * Lwmax) / (e * (k * Lwa) / P)) with (e * Lwmax / (e * Lwa / P))
    by (field; done).
  replace (e * (k * v) / (e * (k * Lwa) / P)) with (e * v / (e * Lwa / P))
    by (field; done).
  done.
Qed.

(** The gamma correction (lines 46-53 and 125-130) preserves order when the
    line does not exceed the curve at [start]. *)
Theorem gammaCorrect_monotone (gamma start slope x y : R) :
  0 < gamma → 0 < start → 0 <= slope →
  slope * start <= Rpower (1.099 * start) (0.9 / gamma) - 0.099 →
  x <= y →
  gammaCorrect gamma start slope x <= gammaCorrect gamma start slope y.
Proof.
  intros Hg Hs Hl Hmeet Hxy. unfold gammaCorrect. exact_arith.
  replace (Q2R 1.099) with 1.099 by (literals; lra).
  replace (Q2R 0.9) with 0.9 by (literals; lra).
  replace (Q2R 0.099) with 0.099 by (literals; lra).
  assert (0 <= 0.9 / gamma) as Hex.
  { apply Rlt_le, Rdiv_lt_0_compat; lra. }
  assert (∀ u t, start <= u → u <= t →
            Rpower (1.099 * u) (0.9 / gamma) <= Rpower (1.099 * t) (0.9 / gamma)) as Hmono.
  { intros u t Hu Hut. apply Rle_Rpower_l; [done|]. lra. }
  destruct (bool_decide (x <= start)) eqn:Hx; destruct (bool_decide (y <= start)) eqn:Hy.
  - apply bool_decide_eq_true_1 in Hx, Hy. nra.
  - apply bool_decide_eq_true_1 in Hx. apply bool_decide_eq_false_1 in Hy.
    pose proof (Hmono start y ltac:(lra) ltac:(lra)). nra.
  - apply bool_decide_eq_false_1 in Hx. apply bool_decide_eq_true_1 in Hy. lra.
  - apply bool_decide_eq_false_1 in Hx, Hy.
    pose proof (Hmono x y ltac:(lra) ltac:(lra)). lra.
Qed.


Lemma clampedValue_range (c : R) : 0 <= clampedValue c <= 1.
Proof.
  unfold clampedValue, glsl_clamp, glsl_max, glsl_min. exact_arith.
  replace (Q2R 0.0) with 0 by (literals; lra).
  replace (Q2R 1.0) with 1 by (literals; lra).
  destruct (bool_decide (c < 0)) eqn:H0.
  - rewrite bool_decide_eq_false_2 by lra. lra.
  - apply bool_decide_eq_false_1 in H0.
    destruct (bool_decide (1 < c)) eqn:H1; [lra|].
    apply bool_decide_eq_false_1 in H1. lra.
Qed.

(** With the default gamma, start and slope the shader's output stays below
    0.9411 for every input: it clamps to 1 before the gamma correction, and
    the correction of 1 is about 0.9404. *)
Theorem fragment_never_white (t e Ldmax Lwa Lwmax b : R) :
  0 <= fragment t e (lit 2.2) Ldmax Lwa Lwmax b (lit 0.018) (lit 4.5) < 0.9411.
Proof.
  rewrite fragment_gammaCorrect.
  pose proof (clampedValue_range (compressed t e Ldmax Lwa Lwmax b)) as Hc.
  set (c := clampedValue _) in *.
  pose proof gamma_branch_at_1 as H1.
  unfold gammaCorrect. exact_arith.
  replace (Q2R 0.018) with 0.018 by (literals; lra).
  replace (Q2R 4.5) with 4.5 by (literals; lra).
  replace (Q2R 1.099 * 1) with 1.099 in H1 by (literals; lra).
  replace (Q2R 1.099) with 1.099 by (literals; lra).
  destruct (bool_decide (c <= 0.018)) eqn:Hb.
  - apply bool_decide_eq_true_1 in Hb. lra.
  - apply bool_decide_eq_false_1 in Hb.
    assert (0 <= Q2R 0.9 / Q2R 2.2) as Hex by (rewrite default_exponent; simpl INR; lra).
    pose proof (Rle_Rpower_l (1.099 * c) 1.099 _ Hex ltac:(lra)) as Hup.
    pose proof (Rle_Rpower_l 0.019782 (1.099 * c) _ Hex ltac:(lra)) as Hlo.
    pose proof (Rpower_lower 0.019782 0.2 9 22 ltac:(lra) ltac:(lra) ltac:(lia) ltac:(lra)) as H2.
    rewrite <- default_exponent in H2.
    lra.
Qed.



End ExactMore.

(** ** The shader's uniforms *)

Section Uniforms.
Context {F : Type} `{Arith F}.

(** The float uniforms that the fragment shader declares are [exposure] and
    the short labels of the operator's parameters after [setParameters],
    no more and no less. *)
Theorem uniforms_are_parameters (image : Image F) (label : string) :
  label ∈ Glsl.float_uniforms (fragmentSource (shader (setParameters image new)))
  ↔ label = "exposure"
    ∨ ∃ key p, parameters (setParameters image new) !! key = Some p ∧ shortLabel p = label.
Proof.
  change (Glsl.float_uniforms (fragmentSource (shader (setParameters image new))))
    with (Glsl.float_uniforms fragment_text).
  assert (Glsl.float_uniforms fragment_text
          = ["exposure"; "gamma"; "Ldmax"; "Lwa"; "Lwmax"; "b"; "slope"; "start"]) as ->
    by (vm_compute; reflexivity).
  split.
  - intros Hin. repeat (apply elem_of_cons in Hin as [->|Hin]); try (by left).
    + right. exists "Gamma". eexists. split; [reflexivity|done].
    + right. exists "Ldmax". eexists. split; [reflexivity|done].
    + right. exists "Lwa". eexists. split; [reflexivity|done].
    + right. exists "Lwmax". eexists. split; [reflexivity|done].
    + right. exists "b". eexists. split; [reflexivity|done].
    + right. exists "slope". eexists. split; [reflexivity|done].
    + right. exists "start". eexists. split; [reflexivity|done].
    + by apply elem_of_nil in Hin.
  - intros [->|(key & p & Hp & <-)]; [set_solver|].
    unfold setParameters, new, default_parameters in Hp. cbn [parameters] in Hp.
    repeat (apply lookup_insert_Some in Hp as [[<- <-]|[_ Hp]]; [cbn; set_solver|]).
    by rewrite lookup_empty in Hp.
Qed.

End Uniforms.

(** *** Instances of the hypotheses *)

Lemma process_returns_iff_capacity_witness :
  process Exact.drago Exact.grid_image [0; 0]%Z 2%R = Overrun.
Proof.
  destruct (process_returns_iff_capacity Exact.drago
              (lit 2.2) (lit 100) 1%R 1%R (lit 0.85) (lit 0.018) (lit 4.5)
              Exact.grid_image [0; 0]%Z 2%R stored_drago) as [_ [_ Hshort]].
  apply Hshort. simpl. lia.
Defined.

Lemma process_idempotent_witness :
  ∃ st, process Exact.drago Exact.unit_image [7; 7; 7; 7]%Z (lit 1) = Ok st
    ∧ process Exact.drago Exact.unit_image (buf st) (lit 1) = Ok st.
Proof.
  assert (3 * (Z.to_nat (getSize Exact.unit_image).2 * Z.to_nat (getSize Exact.unit_image).1)
          ≤ length [7; 7; 7; 7]%Z)%nat as Hcap by (simpl; lia).
  pose proof (process_result Exact.drago _ _ _ _ _ _ _ stored_drago
                Exact.unit_image [7; 7; 7; 7]%Z (lit 1) Hcap) as Hp.
  eexists. split; [exact Hp|].
  exact (process_idempotent Exact.drago _ _ _ _ _ _ _ Exact.unit_image
           [7; 7; 7; 7]%Z (lit 1) _ stored_drago Hp).
Defined.

Lemma process_channels_independent_witness :
  ∃ st1 st2,
    process Exact.drago Exact.grid_image (replicate 18 0%Z) 2%R = Ok st1
    ∧ process Exact.drago Exact.grid_image (replicate 20 7%Z) 2%R = Ok st2
    ∧ buf st1 !! 0%nat = buf st2 !! 0%nat.
Proof.
  destruct (process_channels_independent Exact.drago
              (lit 2.2) (lit 100) 1%R 1%R (lit 0.85) (lit 0.018) (lit 4.5)
              Exact.grid_image Exact.grid_image (replicate 18 0%Z) (replicate 20 7%Z) 2%R
              stored_drago eq_refl)
    as (st1 & st2 & H1 & H2 & Hb).
  - simpl. lia.
  - simpl. lia.
  - exists st1, st2. split; [exact H1|]. split; [exact H2|].
    apply (Hb 0%nat 0%nat); [simpl; lia|simpl; lia|reflexivity].
Defined.

Lemma map_at_Lwmax_witness :
  map 3%R 2%R (lit 2.2) (lit 100) 1%R 3%R (lit 0.85) (lit 0.018) (lit 4.5)
  = gammaCorrect (lit 2.2) (lit 0.018) (lit 4.5) (lit 100 / 100)%R.
Proof.
  apply (map_at_Lwmax 2%R (lit 2.2) (lit 100) 1%R 3%R (lit 0.85) (lit 0.018) (lit 4.5)).
  - lra.
  - lra.
  - lra.
  - exact_arith. literals. lra.
Defined.

Lemma map_black_witness :
  map (H0 := Exact.with_pow Rpower)
    0%R 2%R (lit 2.2) (lit 100) 1%R 3%R (lit 0.85) (lit 0.018) (lit 4.5) = 0%R.
Proof.
  apply (map_black Rpower 2%R (lit 2.2) (lit 100) 1%R 3%R (lit 0.85) (lit 0.018) (lit 4.5)).
  - lra.
  - lra.
  - lra.
  - exact_arith. literals. lra.
  - apply Rpower_pos.
  - apply Rlt_le, Rpower_pos.
Defined.

Lemma map_scale_invariant_witness :
  map (10 * 3)%R 2%R (lit 2.2) (lit 100) (10 * 1)%R (10 * 4)%R (lit 0.85) (lit 0.018) (lit 4.5)
  = map 3%R 2%R (lit 2.2) (lit 100) 1%R 4%R (lit 0.85) (lit 0.018) (lit 4.5).
Proof.
  apply (map_scale_invariant (E := Exact.elementary)
           10%R 3%R 2%R (lit 2.2) (lit 100) 1%R 4%R (lit 0.85) (lit 0.018) (lit 4.5)).
  - lra.
  - lra.
  - lra.
  - apply Rgt_not_eq, Rpower_pos.
Defined.

Lemma gammaCorrect_monotone_witness :
  (gammaCorrect 2.2 0.018 4.5 0.01 <= gammaCorrect 2.2 0.018 4.5 0.5)%R.
Proof.
  apply (gammaCorrect_monotone 2.2 0.018 4.5 0.01 0.5)%R.
  - lra.
  - lra.
  - lra.
  - replace (0.9 / 2.2)%R with (INR 9 / INR 22)%R by (simpl INR; lra).
    replace (1.099 * 0.018)%R with 0.019782%R by lra.
    pose proof (Rpower_lower 0.019782 0.2 9 22 ltac:(lra) ltac:(lra) ltac:(lia) ltac:(lra)).
    lra.
  - lra.
Defined.


Lemma fragment_agrees_in_range_witness :
  fragment 1%R 1%R (lit 2.2) (lit 100) 1%R 1%R (lit 0.85) (lit 0.018) (lit 4.5)
  = map 1%R 1%R (lit 2.2) (lit 100) 1%R 1%R (lit 0.85) (lit 0.018) (lit 4.5).
Proof.
  apply (fragment_agrees_in_range
           1%R 1%R (lit 2.2) (lit 100) 1%R 1%R (lit 0.85) (lit 0.018) (lit 4.5)).
  rewrite compressed_at_Lwmax by (exact_arith; literals; lra).
  exact_arith. literals. lra.
Defined.

